(** * unison-ns3-rdma: in-band telemetry header codec and node dispatch

    A shallow embedding of

    - [src/network/utils/int-header.h] and its companion [int-header.cc]
      (classes [IntHop] and [IntHeader]), and
    - [src/network/model/node.cc] (the protocol-handler dispatch and the
      device-addition listeners of [Node]),

    together with the properties of the natural-language specification that
    concern them.

    Conventions.  Unsigned [w]-bit C++ integers are values of [Z] and every
    place where the C++ arithmetic wraps is written with [wrap16], [wrap32]
    or [wrap64].  The 64-bit storage unit of an [IntHop] is one [Z]; its
    bit-fields are read and written with [Z.land], [Z.lor], [Z.shiftl] and
    [Z.shiftr].  Objects reached through [Ptr<NetDevice>] live in a heap
    ([gmap]) so that aliasing is visible.  Callbacks are opaque: invoking one
    appends an entry to a trace. *)

From Stdlib Require Import ZArith Lia List Bool.
From stdpp Require Import base option list gmap sorting.

Local Open Scope Z_scope.

(** ** Fixed-width unsigned arithmetic *)

Definition wrap8 (x : Z) : Z := x mod 2 ^ 8.
Definition wrap16 (x : Z) : Z := x mod 2 ^ 16.
Definition wrap32 (x : Z) : Z := x mod 2 ^ 32.
Definition wrap64 (x : Z) : Z := x mod 2 ^ 64.

(** Unsigned division; dividing by zero has no result (the C++ program
    traps). *)
Definition udiv (a b : Z) : option Z :=
  if b =? 0 then None else Some (a / b).

(** ** Bit-fields inside a storage unit

    [bf_get off w x] reads the [w]-bit field that starts at bit [off] of [x];
    [bf_set off w x v] stores the low [w] bits of [v] there and leaves every
    other bit of [x] alone, which is what an assignment to a C++ bit-field
    does. *)

Definition bf_get (off w x : Z) : Z :=
  Z.land (Z.shiftr x off) (Z.ones w).

Definition bf_set (off w x v : Z) : Z :=
  Z.lor (Z.land x (Z.lnot (Z.shiftl (Z.ones w) off)))
        (Z.shiftl (Z.land v (Z.ones w)) off).

(** ** IntHop *)

Module IntHop.

Definition timeWidth : Z := 24.
Definition bytesWidth : Z := 20.
Definition qlenWidth : Z := 17.
Definition lineRateWidth : Z := 64 - timeWidth - bytesWidth - qlenWidth.

Definition lineRateValues : list Z :=
  [25000000000; 50000000000; 100000000000; 200000000000; 400000000000;
   0; 0; 0].

Definition byteUnit : Z := 128.
Definition qlenUnit : Z := 80.

(** The union [{ IntHop_t; buf[2] }] is one 64-bit word.  Bit-fields are
    allocated from the least significant bit in declaration order
    (little-endian Itanium/System V C++ ABI, the layout the direct
    packet-buffer aliasing of this code base relies on), and [buf[0]] is
    the low half of the word. *)
Definition t : Type := Z.

Definition lineRateOff : Z := 0.
Definition timeOff : Z := lineRateOff + lineRateWidth.
Definition bytesOff : Z := timeOff + timeWidth.
Definition qlenOff : Z := bytesOff + bytesWidth.

Definition lineRate (h : t) : Z := bf_get lineRateOff lineRateWidth h.
Definition time (h : t) : Z := bf_get timeOff timeWidth h.
Definition bytes (h : t) : Z := bf_get bytesOff bytesWidth h.
Definition qlen (h : t) : Z := bf_get qlenOff qlenWidth h.

Definition set_lineRate (h : t) (v : Z) : t := bf_set lineRateOff lineRateWidth h v.
Definition set_time (h : t) (v : Z) : t := bf_set timeOff timeWidth h v.
Definition set_bytes (h : t) (v : Z) : t := bf_set bytesOff bytesWidth h v.
Definition set_qlen (h : t) (v : Z) : t := bf_set qlenOff qlenWidth h v.

Definition buf0 (h : t) : Z := bf_get 0 32 h.
Definition buf1 (h : t) : Z := bf_get 32 32 h.
Definition set_buf0 (h : t) (v : Z) : t := bf_set 0 32 h v.
Definition set_buf1 (h : t) (v : Z) : t := bf_set 32 32 h v.

(** What [printf] writes on the error path of [Set_]. *)
Inductive Diag : Type :=
| UnknownRate (rate : Z).

(** [multi] is the mutable static [IntHop::multi] (a [uint32_t]); it is
    passed explicitly. *)

Definition GetLineRate (h : t) : Z :=
  nth (Z.to_nat (lineRate h)) lineRateValues 0.

(** [(uint64_t)IntHop_t.bytes * byteUnit * multi]: 64-bit products. *)
Definition GetBytes (multi : Z) (h : t) : Z :=
  wrap64 (wrap64 (bytes h * byteUnit) * multi).

(** [(uint32_t)IntHop_t.qlen * qlenUnit * multi]: 32-bit products. *)
Definition GetQlen (multi : Z) (h : t) : Z :=
  wrap32 (wrap32 (qlen h * qlenUnit) * multi).

Definition GetTime (h : t) : Z := time h.

(** The [switch] of [Set_]: the new rate index, or nothing for [default]. *)
Definition rate_case (_rate : Z) : option Z :=
  if _rate =? 25000000000 then Some 0
  else if _rate =? 50000000000 then Some 1
  else if _rate =? 100000000000 then Some 2
  else if _rate =? 200000000000 then Some 3
  else if _rate =? 400000000000 then Some 4
  else None.

(** [void Set(uint64_t _time, uint64_t _bytes, uint32_t _qlen, uint64_t _rate)].
    The divisors [byteUnit * multi] and [qlenUnit * multi] are 32-bit
    products.  The result is the updated hop and what was printed.
    ([Set] is a reserved word, hence the trailing underscore.) *)
Definition Set_ (multi : Z) (h : t) (_time _bytes _qlen _rate : Z)
  : option (t * list Diag) :=
  let h1 := set_time h _time in
  qb ← udiv _bytes (wrap32 (byteUnit * multi));
  let h2 := set_bytes h1 qb in
  qq ← udiv _qlen (wrap32 (qlenUnit * multi));
  let h3 := set_qlen h2 qq in
  match rate_case _rate with
  | Some idx => Some (set_lineRate h3 idx, [])
  | None => Some (h3, [UnknownRate _rate])
  end.

(** [uint64_t GetBytesDelta(IntHop& b)].  In C++ a bit-field whose values all
    fit [int] is promoted to [int] whatever its declared type (integral
    promotions, [conv.prom]), so [IntHop_t.bytes - b.IntHop_t.bytes] and
    [IntHop_t.bytes + (1 << bytesWidth) - b.IntHop_t.bytes] are [int]s;
    multiplying by the [uint32_t] values [byteUnit] and [multi] is 32-bit
    unsigned arithmetic, and only the result of the whole expression is
    widened to [uint64_t].  [GetBytes] differs: it casts the field to
    [uint64_t] before it multiplies. *)
Definition GetBytesDelta (multi : Z) (a b : t) : Z :=
  if bytes b <=? bytes a
  then wrap64 (wrap32 (wrap32 ((bytes a - bytes b) * byteUnit) * multi))
  else wrap64 (wrap32 (wrap32 ((bytes a + Z.shiftl 1 bytesWidth - bytes b) * byteUnit) * multi)).

(** [uint64_t GetTimeDelta(IntHop& b)]: [int] arithmetic, widened on
    return. *)
Definition GetTimeDelta (a b : t) : Z :=
  if time b <=? time a
  then wrap64 (time a - time b)
  else wrap64 (time a + Z.shiftl 1 timeWidth - time b).

End IntHop.

(** ** Buffer::Iterator

    Modelled from the spec: [Buffer::Iterator] ([ns3/buffer.h]) is not part
    of the source set.  The spec asks for one fixed, documented byte order;
    an iterator is a cursor into a byte array, every write or read of an
    [n]-byte word moves the cursor by [n], and words are laid out least
    significant byte first.  Bytes are values of [Z] below 256.  Accesses
    beyond the end of the array (an assertion failure in ns-3) drop the
    write and read zero; no statement below depends on them. *)

Module Buffer.

Record Iterator : Type := mkIterator {
  data : list Z;
  cur : nat
}.

Definition WriteU8 (i : Iterator) (v : Z) : Iterator :=
  {| data := <[cur i := wrap8 v]> (data i); cur := S (cur i) |}.

Definition ReadU8 (i : Iterator) : Z * Iterator :=
  (default 0 (data i !! cur i), {| data := data i; cur := S (cur i) |}).

(** [n] bytes of [v], least significant first. *)
Fixpoint WriteLE (n : nat) (i : Iterator) (v : Z) : Iterator :=
  match n with
  | O => i
  | S n' => WriteLE n' (WriteU8 i (Z.land v 255)) (Z.shiftr v 8)
  end.

Fixpoint ReadLE (n : nat) (i : Iterator) : Z * Iterator :=
  match n with
  | O => (0, i)
  | S n' =>
      let '(b, i1) := ReadU8 i in
      let '(hi, i2) := ReadLE n' i1 in
      (Z.lor b (Z.shiftl hi 8), i2)
  end.

Definition WriteU16 : Iterator -> Z -> Iterator := WriteLE 2.
Definition WriteU32 : Iterator -> Z -> Iterator := WriteLE 4.
Definition WriteU64 : Iterator -> Z -> Iterator := WriteLE 8.
Definition ReadU16 : Iterator -> Z * Iterator := ReadLE 2.
Definition ReadU32 : Iterator -> Z * Iterator := ReadLE 4.
Definition ReadU64 : Iterator -> Z * Iterator := ReadLE 8.

End Buffer.

(** ** IntHeader *)

Module IntHeader.

Import Buffer.

Definition maxHop : nat := 5.

Inductive Mode : Type := NORMAL | TS | PINT | NONE.

#[global] Instance Mode_eq_dec : EqDecision Mode.
Proof. solve_decision. Defined.

(** The process-wide statics [IntHeader::mode], [IntHeader::pint_bytes] and
    [IntHop::multi]. *)
Record Statics : Type := mkStatics {
  mode : Mode;
  pint_bytes : Z;
  multi : Z
}.

(** Initial values of the statics in [int-header.cc]. *)
Definition initial_statics : Statics :=
  {| mode := NONE; pint_bytes := 2; multi := 1 |}.

(** The anonymous union of the class: the struct [{ hop[maxHop]; nhop }],
    [ts] and [pint] share their first bytes.  The storage is kept as the
    struct; [ts] is the whole first word, [pint.power] its low 16 bits and
    [pint.IntHeader_u.power_lo8] its low 8 bits (little-endian). *)
Record t : Type := mkIntHeader {
  hop : list IntHop.t;
  nhop : Z
}.

Definition hop_at (h : t) (j : nat) : IntHop.t := nth j (hop h) 0.
Definition set_hop (h : t) (j : nat) (x : IntHop.t) : t :=
  {| hop := <[j := x]> (hop h); nhop := nhop h |}.

Definition ts (h : t) : Z := hop_at h 0.
Definition set_ts (h : t) (v : Z) : t := set_hop h 0 (bf_set 0 64 (hop_at h 0) v).
Definition power (h : t) : Z := bf_get 0 16 (hop_at h 0).
Definition set_power (h : t) (v : Z) : t := set_hop h 0 (bf_set 0 16 (hop_at h 0) v).
Definition power_lo8 (h : t) : Z := bf_get 0 8 (hop_at h 0).
Definition set_power_lo8 (h : t) (v : Z) : t := set_hop h 0 (bf_set 0 8 (hop_at h 0) v).

(** [sizeof] of the members [GetStaticSize] mentions. *)
Definition sizeof_IntHop : Z := 8.
Definition sizeof_hop : Z := Z.of_nat maxHop * sizeof_IntHop.
Definition sizeof_nhop : Z := 2.
Definition sizeof_ts : Z := 8.
(** [pint] is a union of a [uint16_t] and a struct of two [uint8_t]. *)
Definition sizeof_pint : Z := 2.

(** [IntHeader::IntHeader()] *)
Definition init : t := {| hop := replicate maxHop 0; nhop := 0 |}.

Definition GetStaticSize (g : Statics) : Z :=
  match mode g with
  | NORMAL => sizeof_hop + sizeof_nhop
  | TS => sizeof_ts
  | PINT => sizeof_pint
  | NONE => 0
  end.

(** [void PushHop(uint64_t time, uint64_t bytes, uint32_t qlen, uint64_t rate)] *)
Definition PushHop (g : Statics) (h : t) (time bytes qlen rate : Z)
  : option (t * list IntHop.Diag) :=
  match mode g with
  | NORMAL =>
      let idx := Z.to_nat (wrap32 (nhop h mod Z.of_nat maxHop)) in
      '(x, out) ← IntHop.Set_ (multi g) (hop_at h idx) time bytes qlen rate;
      Some ({| hop := <[idx := x]> (hop h); nhop := wrap16 (nhop h + 1) |}, out)
  | _ => Some (h, [])
  end.

(** One round of the loop of [Serialize]. *)
Definition serialize_hop (h : t) (i : Iterator) (j : nat) : Iterator :=
  let i := WriteU32 i (IntHop.buf0 (hop_at h j)) in
  WriteU32 i (IntHop.buf1 (hop_at h j)).

(** [void Serialize(Buffer::Iterator start) const]; the result is the local
    iterator [i] when the function returns. *)
Definition Serialize (g : Statics) (h : t) (start : Iterator) : Iterator :=
  let i := start in
  match mode g with
  | NORMAL =>
      let i := fold_left (serialize_hop h) (seq 0 maxHop) i in
      WriteU16 i (nhop h)
  | TS => WriteU64 i (ts h)
  | PINT =>
      if pint_bytes g =? 1 then WriteU8 i (power_lo8 h)
      else if pint_bytes g =? 2 then WriteU16 i (power h)
      else i
  | NONE => i
  end.

(** One round of the loop of [Deserialize]. *)
Definition deserialize_hop (st : t * Iterator) (j : nat) : t * Iterator :=
  let '(h, i) := st in
  let '(w0, i) := ReadU32 i in
  let h := set_hop h j (IntHop.set_buf0 (hop_at h j) w0) in
  let '(w1, i) := ReadU32 i in
  let h := set_hop h j (IntHop.set_buf1 (hop_at h j) w1) in
  (h, i).

(** [uint32_t Deserialize(Buffer::Iterator start)]: the header afterwards, the
    local iterator [i] when the function returns, and the returned value. *)
Definition Deserialize (g : Statics) (h : t) (start : Iterator) : t * Iterator * Z :=
  let i := start in
  let '(h, i) :=
    match mode g with
    | NORMAL =>
        let '(h, i) := fold_left deserialize_hop (seq 0 maxHop) (h, i) in
        let '(n, i) := ReadU16 i in
        ({| hop := hop h; nhop := n |}, i)
    | TS =>
        let '(v, i) := ReadU64 i in
        (set_ts h v, i)
    | PINT =>
        if pint_bytes g =? 1 then
          let '(v, i) := ReadU8 i in (set_power_lo8 h v, i)
        else if pint_bytes g =? 2 then
          let '(v, i) := ReadU16 i in (set_power h v, i)
        else (h, i)
    | NONE => (h, i)
    end in
  (h, i, GetStaticSize g).

Definition GetTs (g : Statics) (h : t) : Z :=
  match mode g with
  | TS => ts h
  | _ => 0
  end.

Definition GetPower (g : Statics) (h : t) : Z :=
  match mode g with
  | PINT => if pint_bytes g =? 1 then power_lo8 h else power h
  | _ => 0
  end.

Definition SetPower (g : Statics) (h : t) (p : Z) : t :=
  match mode g with
  | PINT => if pint_bytes g =? 1 then set_power_lo8 h p else set_power h p
  | _ => h
  end.

End IntHeader.

(** ** Node *)

Module Node.

(** Identities of the objects the node only refers to.  A [Ptr<NetDevice>]
    is [option DevId] ([None] is the null pointer); packets, addresses and
    callbacks are opaque. *)
Abbreviation DevId := nat.
Abbreviation Packet := nat.
Abbreviation Address := nat.
Abbreviation PacketType := nat.
Abbreviation ProtocolHandler := nat.
Abbreviation DeviceAdditionListener := nat.

(** [MakeCallback(&Node::NonPromiscReceiveFromDevice, this)] and
    [MakeCallback(&Node::PromiscReceiveFromDevice, this)]; [this] is named by
    the node id. *)
Inductive ReceiveCallback : Type :=
| NonPromiscReceive (node : Z)
| PromiscReceive (node : Z).

(** Modelled from the spec: the class [NetDevice] is not part of the source
    set.  Per the spec's device capability, a device has an address, an
    index slot and a back-reference set by the node, and the two receive
    callbacks installed by [SetReceiveCallback] and
    [SetPromiscReceiveCallback]. *)
Record NetDevice : Type := mkNetDevice {
  dev_node : option Z;
  dev_ifIndex : Z;
  dev_address : Address;
  dev_receiveCallback : option ReceiveCallback;
  dev_promiscCallback : option ReceiveCallback
}.

Definition SetNode (n : Z) (d : NetDevice) : NetDevice :=
  {| dev_node := Some n; dev_ifIndex := dev_ifIndex d; dev_address := dev_address d;
     dev_receiveCallback := dev_receiveCallback d;
     dev_promiscCallback := dev_promiscCallback d |}.

Definition SetIfIndex (ix : Z) (d : NetDevice) : NetDevice :=
  {| dev_node := dev_node d; dev_ifIndex := ix; dev_address := dev_address d;
     dev_receiveCallback := dev_receiveCallback d;
     dev_promiscCallback := dev_promiscCallback d |}.

Definition SetReceiveCallback (cb : ReceiveCallback) (d : NetDevice) : NetDevice :=
  {| dev_node := dev_node d; dev_ifIndex := dev_ifIndex d; dev_address := dev_address d;
     dev_receiveCallback := Some cb;
     dev_promiscCallback := dev_promiscCallback d |}.

Definition SetPromiscReceiveCallback (cb : ReceiveCallback) (d : NetDevice) : NetDevice :=
  {| dev_node := dev_node d; dev_ifIndex := dev_ifIndex d; dev_address := dev_address d;
     dev_receiveCallback := dev_receiveCallback d;
     dev_promiscCallback := Some cb |}.

(** [Node::ProtocolHandlerEntry] *)
Record ProtocolHandlerEntry : Type := mkEntry {
  handler : ProtocolHandler;
  device : option DevId;
  protocol : Z;
  promiscuous : bool
}.

(** An invocation of an opaque callback, with its arguments. *)
Inductive Call : Type :=
| HandlerCall (h : ProtocolHandler) (device : option DevId) (packet : Packet)
              (protocol : Z) (from to : Address) (packetType : PacketType)
| ListenerCall (l : DeviceAdditionListener) (device : DevId).

(** The members of [Node] that the modelled methods use. *)
Record t : Type := mkNode {
  m_id : Z;
  m_sid : Z;
  m_devices : list DevId;
  m_handlers : list ProtocolHandlerEntry;
  m_deviceAdditionListeners : list DeviceAdditionListener
}.

(** The node together with what it shares with the rest of the simulation:
    the device objects, the simulator (current context and the events
    scheduled with [ScheduleWithContext] at delay zero, as context and
    device to initialize) and the trace of callback invocations.  A device
    identity outside [heap] is a dangling pointer; a method call through it
    leaves the heap alone here, and the statements about a device take it
    from the heap. *)
Record World : Type := mkWorld {
  this : t;
  heap : gmap DevId NetDevice;
  sim_context : Z;
  sim_events : list (Z * DevId);
  calls : list Call
}.

Definition with_node (w : World) (n : t) : World :=
  {| this := n; heap := heap w; sim_context := sim_context w;
     sim_events := sim_events w; calls := calls w |}.

Definition with_heap (w : World) (hp : gmap DevId NetDevice) : World :=
  {| this := this w; heap := hp; sim_context := sim_context w;
     sim_events := sim_events w; calls := calls w |}.

Definition schedule (w : World) (ctx : Z) (d : DevId) : World :=
  {| this := this w; heap := heap w; sim_context := sim_context w;
     sim_events := sim_events w ++ [(ctx, d)]; calls := calls w |}.

Definition invoke (w : World) (c : Call) : World :=
  {| this := this w; heap := heap w; sim_context := sim_context w;
     sim_events := sim_events w; calls := calls w ++ [c] |}.

Definition GetId (w : World) : Z := m_id (this w).

(** [void Node::NotifyDeviceAdded(Ptr<NetDevice> device)] *)
Definition NotifyDeviceAdded (w : World) (device : DevId) : World :=
  fold_left (fun w l => invoke w (ListenerCall l device))
            (m_deviceAdditionListeners (this w)) w.

(** [uint32_t Node::AddDevice(Ptr<NetDevice> device)]; [device] is not null
    (the method dereferences it). *)
Definition AddDevice (w : World) (dev : DevId) : Z * World :=
  let n := this w in
  let index := wrap32 (Z.of_nat (length (m_devices n))) in
  let w := with_node w
             {| m_id := m_id n; m_sid := m_sid n;
                m_devices := m_devices n ++ [dev];
                m_handlers := m_handlers n;
                m_deviceAdditionListeners := m_deviceAdditionListeners n |} in
  let w := with_heap w (alter (SetNode (GetId w)) dev (heap w)) in
  let w := with_heap w (alter (SetIfIndex index) dev (heap w)) in
  let w := with_heap w
             (alter (SetReceiveCallback (NonPromiscReceive (GetId w))) dev (heap w)) in
  let w := schedule w (GetId w) dev in
  let w := NotifyDeviceAdded w dev in
  (index, w).

(** [void Node::RegisterProtocolHandler(ProtocolHandler handler,
    uint16_t protocolType, Ptr<NetDevice> device, bool promiscuous)] *)
Definition RegisterProtocolHandler (w : World) (hdl : ProtocolHandler)
    (protocolType : Z) (dev : option DevId) (promisc : bool) : World :=
  let entry := {| handler := hdl; protocol := protocolType;
                  device := dev; promiscuous := promisc |} in
  let w :=
    if promisc then
      match dev with
      | None =>
          fold_left
            (fun w d =>
               with_heap w
                 (alter (SetPromiscReceiveCallback (PromiscReceive (GetId w))) d (heap w)))
            (m_devices (this w)) w
      | Some d =>
          with_heap w
            (alter (SetPromiscReceiveCallback (PromiscReceive (GetId w))) d (heap w))
      end
    else w in
  let n := this w in
  with_node w
    {| m_id := m_id n; m_sid := m_sid n; m_devices := m_devices n;
       m_handlers := m_handlers n ++ [entry];
       m_deviceAdditionListeners := m_deviceAdditionListeners n |}.

(** The test of one entry in the loop of [ReceiveFromDevice], with the
    nesting of the source. *)
Definition entry_selected (e : ProtocolHandlerEntry) (dev : option DevId)
    (proto : Z) (promisc : bool) : bool :=
  if (match device e with None => true | Some _ => false end)
     || bool_decide (device e = dev)
  then
    if (protocol e =? 0) || (protocol e =? proto)
    then
      if eqb promisc (promiscuous e) then true else false
    else false
  else false.

(** One round of the loop of [ReceiveFromDevice]. *)
Definition receive_step (dev : option DevId) (packet : Packet) (proto : Z)
    (from to : Address) (packetType : PacketType) (promisc : bool)
    (st : bool * World) (e : ProtocolHandlerEntry) : bool * World :=
  let '(found, w) := st in
  if entry_selected e dev proto promisc
  then (true, invoke w (HandlerCall (handler e) dev packet proto from to packetType))
  else (found, w).

(** [bool Node::ReceiveFromDevice(...)].  The context assertion at its head
    ends the run when it fails. *)
Definition ReceiveFromDevice (w : World) (dev : option DevId) (packet : Packet)
    (proto : Z) (from to : Address) (packetType : PacketType) (promisc : bool)
  : option (bool * World) :=
  if sim_context w =? GetId w then
    let found := false in
    Some (fold_left (receive_step dev packet proto from to packetType promisc)
                    (m_handlers (this w)) (found, w))
  else None.

(** [bool Node::PromiscReceiveFromDevice(...)] *)
Definition PromiscReceiveFromDevice (w : World) (dev : option DevId)
    (packet : Packet) (proto : Z) (from to : Address) (packetType : PacketType)
  : option (bool * World) :=
  ReceiveFromDevice w dev packet proto from to packetType true.

(** [bool Node::NonPromiscReceiveFromDevice(...)]; [device->GetAddress()]
    needs a live device. *)
Definition NonPromiscReceiveFromDevice (w : World) (dev : DevId)
    (packet : Packet) (proto : Z) (from : Address) : option (bool * World) :=
  d ← heap w !! dev;
  ReceiveFromDevice w (Some dev) packet proto from (dev_address d) 0%nat false.

(** [void Node::RegisterDeviceAdditionListener(DeviceAdditionListener listener)] *)
Definition RegisterDeviceAdditionListener (w : World)
    (listener : DeviceAdditionListener) : World :=
  let n := this w in
  let w := with_node w
             {| m_id := m_id n; m_sid := m_sid n; m_devices := m_devices n;
                m_handlers := m_handlers n;
                m_deviceAdditionListeners := m_deviceAdditionListeners n ++ [listener] |} in
  fold_left (fun w d => invoke w (ListenerCall listener d)) (m_devices (this w)) w.

End Node.

(** ** Vocabulary of the specification

    The notions the specification uses to talk about the code above. *)

(** The five supported line rates, {25, 50, 100, 200, 400} x 10^9, in table
    order. *)
Definition supported_rates : list Z :=
  [25 * 10 ^ 9; 50 * 10 ^ 9; 100 * 10 ^ 9; 200 * 10 ^ 9; 400 * 10 ^ 9].

(** Both quotients of [IntHop.Set_] are defined. *)
Definition div_defined (multi : Z) : Prop :=
  wrap32 (IntHop.byteUnit * multi) <> 0 /\ wrap32 (IntHop.qlenUnit * multi) <> 0.

(** A multiplier for which the 32-bit products [byteUnit * multi] and
    [qlenUnit * multi] are exact and not zero. *)
Definition multi_fits (multi : Z) : Prop :=
  0 < multi /\ IntHop.byteUnit * multi < 2 ^ 32.

(** A hop is one 64-bit storage unit. *)
Definition hop_wf (x : IntHop.t) : Prop := 0 <= x < 2 ^ 64.

(** A header holds [maxHop] hops and a 16-bit counter. *)
Definition header_wf (h : IntHeader.t) : Prop :=
  length (IntHeader.hop h) = IntHeader.maxHop /\
  Forall hop_wf (IntHeader.hop h) /\
  0 <= IntHeader.nhop h < 2 ^ 16.

(** Equality of two headers in the fields observable in the active mode. *)
Definition observable_eq (g : IntHeader.Statics) (h1 h2 : IntHeader.t) : Prop :=
  match IntHeader.mode g with
  | IntHeader.NORMAL =>
      IntHeader.hop h1 = IntHeader.hop h2 /\ IntHeader.nhop h1 = IntHeader.nhop h2
  | IntHeader.TS => IntHeader.GetTs g h1 = IntHeader.GetTs g h2
  | IntHeader.PINT => IntHeader.GetPower g h1 = IntHeader.GetPower g h2
  | IntHeader.NONE => True
  end.

(** The iterator [start] positioned on the bytes that [after] left behind. *)
Definition rewind (start after : Buffer.Iterator) : Buffer.Iterator :=
  {| Buffer.data := Buffer.data after; Buffer.cur := Buffer.cur start |}.

(** Number of bytes between two positions of an iterator. *)
Definition distance (start after : Buffer.Iterator) : Z :=
  Z.of_nat (Buffer.cur after) - Z.of_nat (Buffer.cur start).

(** The quantization round trip as the specification words it: for every
    [bytes >= 0] (and every [qlen >= 0]), with no upper bound on either. *)
Definition quantization_spec : Prop :=
  forall multi h t b q r h' out,
    multi_fits multi -> 0 <= b < 2 ^ 64 -> 0 <= q < 2 ^ 32 ->
    IntHop.Set_ multi h t b q r = Some (h', out) ->
    (b - IntHop.byteUnit * multi + 1 <= IntHop.GetBytes multi h' <= b /\
     (IntHop.byteUnit * multi | IntHop.GetBytes multi h')) /\
    (q - IntHop.qlenUnit * multi + 1 <= IntHop.GetQlen multi h' <= q /\
     (IntHop.qlenUnit * multi | IntHop.GetQlen multi h')).

(** The ring slot [PushHop] writes. *)
Definition ring_slot (h : IntHeader.t) : nat :=
  Z.to_nat (IntHeader.nhop h mod Z.of_nat IntHeader.maxHop).

(** What [PushHop] does in NORMAL mode, up to the new value [n'] of the
    counter. *)
Definition pushed (g : IntHeader.Statics) (h : IntHeader.t) (t b q r : Z)
    (n' : Z) (h' : IntHeader.t) (out : list IntHop.Diag) : Prop :=
  IntHop.Set_ (IntHeader.multi g) (IntHeader.hop_at h (ring_slot h)) t b q r
    = Some (IntHeader.hop_at h' (ring_slot h), out) /\
  IntHeader.nhop h' = n' /\
  length (IntHeader.hop h') = length (IntHeader.hop h) /\
  forall j, j <> ring_slot h -> IntHeader.hop_at h' j = IntHeader.hop_at h j.

(** [PushHop] as the specification words it: the counter goes up by one. *)
Definition PushHop_spec : Prop :=
  forall g h t b q r h' out,
    header_wf h ->
    IntHeader.PushHop g h t b q r = Some (h', out) ->
    (IntHeader.mode g <> IntHeader.NORMAL -> h' = h) /\
    (IntHeader.mode g = IntHeader.NORMAL ->
     pushed g h t b q r (IntHeader.nhop h + 1) h' out).

(** An entry matches a reception, in the words of the specification. *)
Definition entry_matches (dev : option Node.DevId) (proto : Z) (promisc : bool)
    (e : Node.ProtocolHandlerEntry) : Prop :=
  (Node.device e = None \/ Node.device e = dev) /\
  (Node.protocol e = 0 \/ Node.protocol e = proto) /\
  Node.promiscuous e = promisc.

#[global] Instance entry_matches_dec dev proto promisc e :
  Decision (entry_matches dev proto promisc e).
Proof. unfold entry_matches. apply _. Defined.

(** The invocation of the handler of an entry. *)
Definition handler_call (dev : option Node.DevId) (packet : Node.Packet)
    (proto : Z) (from to : Node.Address) (packetType : Node.PacketType)
    (e : Node.ProtocolHandlerEntry) : Node.Call :=
  Node.HandlerCall (Node.handler e) dev packet proto from to packetType.

(** The promiscuous callback a node installs on a device. *)
Definition promisc_armed (w : Node.World) (d : Node.NetDevice) : Node.NetDevice :=
  Node.SetPromiscReceiveCallback (Node.PromiscReceive (Node.GetId w)) d.

(** [n] bytes of [v], least significant first, and the value of such a
    sequence of bytes. *)
Fixpoint le_bytes (n : nat) (v : Z) : list Z :=
  match n with
  | O => []
  | S n' => Z.land v 255 :: le_bytes n' (Z.shiftr v 8)
  end.

Fixpoint le_value (bs : list Z) : Z :=
  match bs with
  | [] => 0
  | b :: bs' => Z.lor b (Z.shiftl (le_value bs') 8)
  end.

(** The iterator after [bs] has been laid over the bytes under the cursor. *)
Definition write_bytes (i : Buffer.Iterator) (bs : list Z) : Buffer.Iterator :=
  {| Buffer.data := take (Buffer.cur i) (Buffer.data i) ++ bs
                    ++ drop (Buffer.cur i + length bs) (Buffer.data i);
     Buffer.cur := Buffer.cur i + length bs |}.

(** The iterator moved forward by [n] bytes. *)
Definition skip (i : Buffer.Iterator) (n : nat) : Buffer.Iterator :=
  {| Buffer.data := Buffer.data i; Buffer.cur := Buffer.cur i + n |}.

(** The eight bytes of a hop on the wire. *)
Definition hop_bytes (x : IntHop.t) : list Z :=
  le_bytes 4 (IntHop.buf0 x) ++ le_bytes 4 (IntHop.buf1 x).

(** The bytes [Serialize] produces. *)
Definition wire (g : IntHeader.Statics) (h : IntHeader.t) : list Z :=
  match IntHeader.mode g with
  | IntHeader.NORMAL =>
      flat_map (fun j => hop_bytes (IntHeader.hop_at h j)) (seq 0 IntHeader.maxHop)
      ++ le_bytes 2 (IntHeader.nhop h)
  | IntHeader.TS => le_bytes 8 (IntHeader.ts h)
  | IntHeader.PINT =>
      if IntHeader.pint_bytes g =? 1 then [IntHeader.power_lo8 h]
      else if IntHeader.pint_bytes g =? 2 then le_bytes 2 (IntHeader.power h)
      else []
  | IntHeader.NONE => []
  end.

(** ** Node: lookup, unregistration and life cycle

    The methods of [node.cc] that the definitions above leave out.  They work
    on the same [Node.World]; the application list and the calls into the
    attached objects that [DoDispose] and [DoInitialize] make are kept
    beside it in [Objects]. *)

Module NodeLife.

Import Node.

Abbreviation AppId := nat.

(** The loop shared by the two unregistration methods: erase the first
    element that compares equal, then [break]. *)
Fixpoint erase_first {A} (eq : A -> bool) (l : list A) : list A :=
  match l with
  | [] => []
  | x :: l' => if eq x then l' else x :: erase_first eq l'
  end.

(** [uint32_t Node::GetNDevices() const] *)
Definition GetNDevices (w : World) : Z :=
  wrap32 (Z.of_nat (length (m_devices (this w)))).

(** [Ptr<NetDevice> Node::GetDevice(uint32_t index) const]; the assertion on
    the index ends the run when it fails. *)
Definition GetDevice (w : World) (index : Z) : option DevId :=
  if index <? Z.of_nat (length (m_devices (this w)))
  then m_devices (this w) !! Z.to_nat index
  else None.

(** [void Node::UnregisterProtocolHandler(ProtocolHandler handler)];
    [IsEqual] compares the identities of the callbacks. *)
Definition UnregisterProtocolHandler (w : World) (hdl : ProtocolHandler) : World :=
  let n := this w in
  with_node w
    {| m_id := m_id n; m_sid := m_sid n; m_devices := m_devices n;
       m_handlers := erase_first (fun e => Nat.eqb (handler e) hdl) (m_handlers n);
       m_deviceAdditionListeners := m_deviceAdditionListeners n |}.

(** [void Node::UnregisterDeviceAdditionListener(DeviceAdditionListener listener)] *)
Definition UnregisterDeviceAdditionListener (w : World)
    (listener : DeviceAdditionListener) : World :=
  let n := this w in
  with_node w
    {| m_id := m_id n; m_sid := m_sid n; m_devices := m_devices n;
       m_handlers := m_handlers n;
       m_deviceAdditionListeners :=
         erase_first (fun l => Nat.eqb l listener) (m_deviceAdditionListeners n) |}.

(** Calls the node makes into the objects attached to it and into its base
    class, and the application events it schedules. *)
Inductive Effect : Type :=
| DeviceDispose (d : DevId)
| DeviceInitialize (d : DevId)
| ApplicationSetNode (a : AppId) (node : Z)
| ApplicationSchedule (context : Z) (a : AppId)
| ApplicationDispose (a : AppId)
| ApplicationInitialize (a : AppId)
| ObjectDoDispose
| ObjectDoInitialize.

Record Objects : Type := mkObjects {
  world : World;
  m_applications : list AppId;
  effects : list Effect
}.

Definition perform (o : Objects) (e : Effect) : Objects :=
  {| world := world o; m_applications := m_applications o;
     effects := effects o ++ [e] |}.

(** [uint32_t Node::AddApplication(Ptr<Application> application)] *)
Definition AddApplication (o : Objects) (application : AppId) : Z * Objects :=
  let index := wrap32 (Z.of_nat (length (m_applications o))) in
  let o := {| world := world o;
              m_applications := m_applications o ++ [application];
              effects := effects o |} in
  let o := perform o (ApplicationSetNode application (GetId (world o))) in
  let o := perform o (ApplicationSchedule (GetId (world o)) application) in
  (index, o).

(** [Ptr<Application> Node::GetApplication(uint32_t index) const] *)
Definition GetApplication (o : Objects) (index : Z) : option AppId :=
  if index <? Z.of_nat (length (m_applications o))
  then m_applications o !! Z.to_nat index
  else None.

(** [uint32_t Node::GetNApplications() const] *)
Definition GetNApplications (o : Objects) : Z :=
  wrap32 (Z.of_nat (length (m_applications o))).

(** [void Node::DoDispose()] *)
Definition DoDispose (o : Objects) : Objects :=
  let n := this (world o) in
  let o := {| world := with_node (world o)
                {| m_id := m_id n; m_sid := m_sid n; m_devices := m_devices n;
                   m_handlers := [];
                   m_deviceAdditionListeners := [] |};
              m_applications := m_applications o; effects := effects o |} in
  let o := fold_left (fun o d => perform o (DeviceDispose d))
                     (m_devices (this (world o))) o in
  let n := this (world o) in
  let o := {| world := with_node (world o)
                {| m_id := m_id n; m_sid := m_sid n; m_devices := [];
                   m_handlers := m_handlers n;
                   m_deviceAdditionListeners := m_deviceAdditionListeners n |};
              m_applications := m_applications o; effects := effects o |} in
  let o := fold_left (fun o a => perform o (ApplicationDispose a))
                     (m_applications o) o in
  let o := {| world := world o; m_applications := []; effects := effects o |} in
  perform o ObjectDoDispose.

(** [void Node::DoInitialize()] *)
Definition DoInitialize (o : Objects) : Objects :=
  let o := fold_left (fun o d => perform o (DeviceInitialize d))
                     (m_devices (this (world o))) o in
  let o := fold_left (fun o a => perform o (ApplicationInitialize a))
                     (m_applications o) o in
  perform o ObjectDoInitialize.

End NodeLife.

(** ** PropagationCache

    The template class of [propagation-cache.h].  A [Ptr<const MobilityModel>]
    is compared by address and is a [Z] here; a [Ptr<T>] is [option nat],
    [None] for [nullptr].  The [std::map] is the list of its entries in key
    order: [find] is the search for the first entry whose key is not less
    than the one looked for, and [insert] puts a new entry at its place in
    the order and leaves the map alone when an equivalent key is there. *)

Module PropagationCache.

Record PropagationPathIdentifier : Type := mkPathId {
  m_srcMobility : Z;
  m_dstMobility : Z;
  m_spectrumModelUid : Z
}.

(** [std::min] and [std::max] on two pointers. *)
Definition ptr_min (a b : Z) : Z := if b <? a then b else a.
Definition ptr_max (a b : Z) : Z := if a <? b then b else a.

(** [bool operator<(const PropagationPathIdentifier& other) const] *)
Definition less (x other : PropagationPathIdentifier) : bool :=
  if negb (m_spectrumModelUid x =? m_spectrumModelUid other)
  then m_spectrumModelUid x <? m_spectrumModelUid other
  else if negb (ptr_min (m_dstMobility x) (m_srcMobility x)
                =? ptr_min (m_dstMobility other) (m_srcMobility other))
  then ptr_min (m_dstMobility x) (m_srcMobility x)
       <? ptr_min (m_dstMobility other) (m_srcMobility other)
  else if negb (ptr_max (m_dstMobility x) (m_srcMobility x)
                =? ptr_max (m_dstMobility other) (m_srcMobility other))
  then ptr_max (m_dstMobility x) (m_srcMobility x)
       <? ptr_max (m_dstMobility other) (m_srcMobility other)
  else false.

(** [typedef std::map<PropagationPathIdentifier, Ptr<T>> PathCache] *)
Definition PathCache : Type := list (PropagationPathIdentifier * option nat).

(** [m_pathCache.find(key)]: the mapped value, or nothing for [end()]. *)
Fixpoint map_find (key : PropagationPathIdentifier) (m : PathCache)
  : option (option nat) :=
  match m with
  | [] => None
  | (k, v) :: m' =>
      if less k key then map_find key m'
      else if less key k then None
      else Some v
  end.

(** [m_pathCache.insert(std::make_pair(key, data))] *)
Fixpoint map_insert (key : PropagationPathIdentifier) (data : option nat)
    (m : PathCache) : PathCache :=
  match m with
  | [] => [(key, data)]
  | (k, v) :: m' =>
      if less k key then (k, v) :: map_insert key data m'
      else if less key k then (key, data) :: (k, v) :: m'
      else (k, v) :: m'
  end.

(** [Ptr<T> GetPathData(Ptr<const MobilityModel> a, Ptr<const MobilityModel> b,
    uint32_t modelUid)] *)
Definition GetPathData (m_pathCache : PathCache) (a b : Z) (modelUid : Z)
  : option nat :=
  let key := mkPathId a b modelUid in
  match map_find key m_pathCache with
  | None => None
  | Some second => second
  end.

(** [void AddPathData(Ptr<T> data, Ptr<const MobilityModel> a,
    Ptr<const MobilityModel> b, uint32_t modelUid)]; the assertion that the
    key is new ends the run when it fails. *)
Definition AddPathData (m_pathCache : PathCache) (data : option nat)
    (a b : Z) (modelUid : Z) : option PathCache :=
  let key := mkPathId a b modelUid in
  match map_find key m_pathCache with
  | None => Some (map_insert key data m_pathCache)
  | Some _ => None
  end.


End PropagationCache.

(** ** Vocabulary for the remaining code *)

(** A sample handed to [PushHop]: time, bytes, qlen and rate. *)
Definition Sample : Type := Z * Z * Z * Z.

(** A sequence of [PushHop] calls on one header, as a packet crossing a
    sequence of hops makes them. *)
Fixpoint push_all (g : IntHeader.Statics) (h : IntHeader.t) (xs : list Sample)
  : option (IntHeader.t * list IntHop.Diag) :=
  match xs with
  | [] => Some (h, [])
  | (t, b, q, r) :: xs' =>
      '(h1, out1) ← IntHeader.PushHop g h t b q r;
      '(h2, out2) ← push_all g h1 xs';
      Some (h2, out1 ++ out2)
  end.

(** The fields [Set_] stores for a sample with a supported rate. *)
Definition holds_sample (multi : Z) (x : IntHop.t) (s : Sample) : Prop :=
  let '(t, b, q, r) := s in
  IntHop.time x = t mod 2 ^ IntHop.timeWidth /\
  IntHop.bytes x = (b / wrap32 (IntHop.byteUnit * multi)) mod 2 ^ IntHop.bytesWidth /\
  IntHop.qlen x = (q / wrap32 (IntHop.qlenUnit * multi)) mod 2 ^ IntHop.qlenWidth /\
  forall i, supported_rates !! i = Some r -> IntHop.lineRate x = Z.of_nat i.

(** Two keys of the cache that neither is less than the other. *)
Definition equivalent (x y : PropagationCache.PropagationPathIdentifier) : Prop :=
  PropagationCache.less x y = false /\ PropagationCache.less y x = false.

(** The same model uid and the same two endpoints, in either order. *)
Definition same_path (x y : PropagationCache.PropagationPathIdentifier) : Prop :=
  PropagationCache.m_spectrumModelUid x = PropagationCache.m_spectrumModelUid y /\
  ((PropagationCache.m_srcMobility x = PropagationCache.m_srcMobility y /\
    PropagationCache.m_dstMobility x = PropagationCache.m_dstMobility y) \/
   (PropagationCache.m_srcMobility x = PropagationCache.m_dstMobility y /\
    PropagationCache.m_dstMobility x = PropagationCache.m_srcMobility y)).

(** A cache built from the empty one by successful calls of [AddPathData]. *)
Inductive built : PropagationCache.PathCache -> Prop :=
| built_empty : built []
| built_add m data a b uid m' :
    built m -> PropagationCache.AddPathData m data a b uid = Some m' -> built m'.

(** What [operator<] compares: the uid, then the lower and the higher of the
    two endpoint addresses. *)
Definition path_key (x : PropagationCache.PropagationPathIdentifier) : Z * Z * Z :=
  (PropagationCache.m_spectrumModelUid x,
   PropagationCache.ptr_min (PropagationCache.m_dstMobility x)
                            (PropagationCache.m_srcMobility x),
   PropagationCache.ptr_max (PropagationCache.m_dstMobility x)
                            (PropagationCache.m_srcMobility x)).

(** The order of two entries of the cache: the order of their keys. *)
Definition key_less (p q : PropagationCache.PropagationPathIdentifier * option nat)
  : Prop :=
  PropagationCache.less p.1 q.1 = true.

(** * Properties *)

(** ** Bit-fields *)

Lemma testbit_ones_nonneg w i : 0 <= w -> 0 <= i -> Z.testbit (Z.ones w) i = (i <? w).
Proof.
  intros Hw Hi. destruct (Z.ltb_spec i w).
  - apply Z.ones_spec_low; lia.
  - apply Z.ones_spec_high; lia.
Qed.

Lemma testbit_bf_get off w x i :
  0 <= off -> 0 <= w -> 0 <= i ->
  Z.testbit (bf_get off w x) i = (i <? w) && Z.testbit x (i + off).
Proof.
  intros Ho Hw Hi. unfold bf_get.
  rewrite Z.land_spec, Z.shiftr_spec, testbit_ones_nonneg by lia.
  apply andb_comm.
Qed.

Lemma testbit_bf_set off w x v i :
  0 <= off -> 0 <= w -> 0 <= i ->
  Z.testbit (bf_set off w x v) i =
  if (off <=? i) && (i <? off + w) then Z.testbit v (i - off) else Z.testbit x i.
Proof.
  intros Ho Hw Hi. unfold bf_set.
  rewrite Z.lor_spec, !Z.land_spec, Z.lnot_spec, !Z.shiftl_spec by lia.
  rewrite Z.land_spec.
  destruct (Z.leb_spec off i); simpl.
  - rewrite !testbit_ones_nonneg by lia.
    destruct (Z.ltb_spec (i - off) w), (Z.ltb_spec i (off + w)); try lia; simpl.
    + rewrite andb_false_r, andb_true_r. reflexivity.
    + rewrite andb_true_r, andb_false_r, orb_false_r. reflexivity.
  - rewrite !(Z.testbit_neg_r _ (i - off)) by lia. simpl.
    rewrite andb_true_r, orb_false_r. reflexivity.
Qed.

Lemma bf_get_set_same off w x v :
  0 <= off -> 0 <= w -> bf_get off w (bf_set off w x v) = v mod 2 ^ w.
Proof.
  intros Ho Hw. rewrite <- Z.land_ones by lia.
  apply Z.bits_inj'. intros i Hi.
  rewrite testbit_bf_get, testbit_bf_set, Z.land_spec, testbit_ones_nonneg by lia.
  destruct (Z.ltb_spec i w); simpl.
  - replace (i + off - off) with i by lia.
    destruct (Z.leb_spec off (i + off)), (Z.ltb_spec (i + off) (off + w)); try lia.
    simpl. rewrite andb_true_r. reflexivity.
  - rewrite andb_false_r. reflexivity.
Qed.

Lemma bf_get_set_other off1 w1 off2 w2 x v :
  0 <= off1 -> 0 <= w1 -> 0 <= off2 -> 0 <= w2 ->
  off1 + w1 <= off2 \/ off2 + w2 <= off1 ->
  bf_get off1 w1 (bf_set off2 w2 x v) = bf_get off1 w1 x.
Proof.
  intros Ho1 Hw1 Ho2 Hw2 Hd.
  apply Z.bits_inj'. intros i Hi.
  rewrite !testbit_bf_get, testbit_bf_set by lia.
  destruct (Z.ltb_spec i w1); simpl; [|reflexivity].
  destruct (Z.leb_spec off2 (i + off1)), (Z.ltb_spec (i + off1) (off2 + w2));
    simpl; try reflexivity; lia.
Qed.

Lemma bf_get_range off w x : 0 <= w -> 0 <= bf_get off w x < 2 ^ w.
Proof.
  intros Hw. unfold bf_get. rewrite Z.land_ones by lia.
  apply Z.mod_pos_bound. apply Z.pow_pos_nonneg; lia.
Qed.

(* unsigned n-bit words, bitwise *)
Lemma unsigned_testbit n x :
  0 <= n -> (0 <= x < 2 ^ n <-> forall i, n <= i -> Z.testbit x i = false).
Proof.
  intros Hn. split.
  - intros Hx i Hi. rewrite <- (Z.mod_small x (2 ^ n)) by lia.
    apply Z.mod_pow2_bits_high. lia.
  - intros Hb.
    assert (x mod 2 ^ n = x) as <-.
    { rewrite <- Z.land_ones by lia. apply Z.bits_inj'. intros i Hi.
      rewrite Z.land_spec, testbit_ones_nonneg by lia.
      destruct (Z.ltb_spec i n).
      - apply andb_true_r.
      - rewrite andb_false_r. symmetry. apply Hb. lia. }
    apply Z.mod_pos_bound. apply Z.pow_pos_nonneg; lia.
Qed.

Lemma bf_set_range n off w x v :
  0 <= off -> 0 <= w -> off + w <= n ->
  0 <= x < 2 ^ n -> 0 <= bf_set off w x v < 2 ^ n.
Proof.
  intros Ho Hw Hn Hx.
  assert (0 <= n) as Hn0 by lia.
  apply unsigned_testbit; [lia|]. intros i Hi.
  rewrite testbit_bf_set by lia.
  destruct (Z.leb_spec off i), (Z.ltb_spec i (off + w)); simpl; try lia;
    apply (proj1 (unsigned_testbit n x Hn0) Hx); lia.
Qed.

(** ** Facts on the fields of a hop *)

Lemma width_facts :
  IntHop.lineRateWidth = 3 /\ IntHop.timeOff = 3 /\ IntHop.bytesOff = 27 /\
  IntHop.qlenOff = 47 /\ IntHop.qlenOff + IntHop.qlenWidth = 64.
Proof. repeat split; reflexivity. Qed.

Ltac field_simpl :=
  cbv [IntHop.lineRate IntHop.time IntHop.bytes IntHop.qlen
       IntHop.set_lineRate IntHop.set_time IntHop.set_bytes IntHop.set_qlen
       IntHop.lineRateOff IntHop.timeOff IntHop.bytesOff IntHop.qlenOff
       IntHop.lineRateWidth IntHop.timeWidth IntHop.bytesWidth IntHop.qlenWidth] in *.

Ltac field_same := field_simpl; rewrite bf_get_set_same by lia; reflexivity.
Ltac field_other := field_simpl; rewrite bf_get_set_other by lia; reflexivity.

Lemma time_set_time h v : IntHop.time (IntHop.set_time h v) = v mod 2 ^ 24.
Proof. field_same. Qed.
Lemma bytes_set_bytes h v : IntHop.bytes (IntHop.set_bytes h v) = v mod 2 ^ 20.
Proof. field_same. Qed.
Lemma qlen_set_qlen h v : IntHop.qlen (IntHop.set_qlen h v) = v mod 2 ^ 17.
Proof. field_same. Qed.
Lemma lineRate_set_lineRate h v : IntHop.lineRate (IntHop.set_lineRate h v) = v mod 2 ^ 3.
Proof. field_same. Qed.

Lemma time_set_bytes h v : IntHop.time (IntHop.set_bytes h v) = IntHop.time h.
Proof. field_other. Qed.
Lemma time_set_qlen h v : IntHop.time (IntHop.set_qlen h v) = IntHop.time h.
Proof. field_other. Qed.
Lemma time_set_lineRate h v : IntHop.time (IntHop.set_lineRate h v) = IntHop.time h.
Proof. field_other. Qed.
Lemma bytes_set_time h v : IntHop.bytes (IntHop.set_time h v) = IntHop.bytes h.
Proof. field_other. Qed.
Lemma bytes_set_qlen h v : IntHop.bytes (IntHop.set_qlen h v) = IntHop.bytes h.
Proof. field_other. Qed.
Lemma bytes_set_lineRate h v : IntHop.bytes (IntHop.set_lineRate h v) = IntHop.bytes h.
Proof. field_other. Qed.
Lemma qlen_set_time h v : IntHop.qlen (IntHop.set_time h v) = IntHop.qlen h.
Proof. field_other. Qed.
Lemma qlen_set_bytes h v : IntHop.qlen (IntHop.set_bytes h v) = IntHop.qlen h.
Proof. field_other. Qed.
Lemma qlen_set_lineRate h v : IntHop.qlen (IntHop.set_lineRate h v) = IntHop.qlen h.
Proof. field_other. Qed.
Lemma lineRate_set_time h v : IntHop.lineRate (IntHop.set_time h v) = IntHop.lineRate h.
Proof. field_other. Qed.
Lemma lineRate_set_bytes h v : IntHop.lineRate (IntHop.set_bytes h v) = IntHop.lineRate h.
Proof. field_other. Qed.
Lemma lineRate_set_qlen h v : IntHop.lineRate (IntHop.set_qlen h v) = IntHop.lineRate h.
Proof. field_other. Qed.

Create Rewrite HintDb hop_fields.

#[local] Hint Rewrite
  time_set_time bytes_set_bytes qlen_set_qlen lineRate_set_lineRate
  time_set_bytes time_set_qlen time_set_lineRate
  bytes_set_time bytes_set_qlen bytes_set_lineRate
  qlen_set_time qlen_set_bytes qlen_set_lineRate
  lineRate_set_time lineRate_set_bytes lineRate_set_qlen : hop_fields.

Lemma bytes_range h : 0 <= IntHop.bytes h < 2 ^ 20.
Proof. apply bf_get_range. unfold IntHop.bytesWidth; lia. Qed.
Lemma time_range h : 0 <= IntHop.time h < 2 ^ 24.
Proof. apply bf_get_range. unfold IntHop.timeWidth; lia. Qed.
Lemma qlen_range h : 0 <= IntHop.qlen h < 2 ^ 17.
Proof. apply bf_get_range. unfold IntHop.qlenWidth; lia. Qed.
Lemma lineRate_range h : 0 <= IntHop.lineRate h < 2 ^ 3.
Proof. apply bf_get_range. unfold IntHop.lineRateWidth, IntHop.timeWidth, IntHop.bytesWidth, IntHop.qlenWidth; lia. Qed.

(** ** [Set_] *)

Lemma udiv_defined a b : b <> 0 -> udiv a b = Some (a / b).
Proof. intros Hb. unfold udiv. destruct (Z.eqb_spec b 0); [contradiction|reflexivity]. Qed.

(** The switch of [Set_] finds exactly the table index of a supported
    rate. *)
Lemma rate_case_supported r i :
  supported_rates !! i = Some r -> IntHop.rate_case r = Some (Z.of_nat i).
Proof.
  intros H. do 5 (destruct i as [|i]; [injection H as <-; reflexivity|]).
  discriminate H.
Qed.

Lemma rate_case_unsupported r :
  r ∉ supported_rates -> IntHop.rate_case r = None.
Proof.
  intros H. unfold IntHop.rate_case.
  repeat match goal with
  | |- context [?x =? ?c] =>
      destruct (Z.eqb_spec x c) as [->|_];
      [exfalso; apply H; unfold supported_rates; set_solver|]
  end.
  reflexivity.
Qed.

Lemma rate_case_range r idx : IntHop.rate_case r = Some idx -> 0 <= idx < 5.
Proof.
  unfold IntHop.rate_case.
  repeat match goal with
  | |- context [?x =? ?c] => destruct (x =? c)
  end; intros H; inversion H; lia.
Qed.

(** [Set_] returns whenever its two divisions are defined, and then the
    fields are the ones the code assigns. *)
Lemma Set_fields multi h t b q r :
  div_defined multi ->
  exists h',
    IntHop.Set_ multi h t b q r =
      Some (h', match IntHop.rate_case r with Some _ => [] | None => [IntHop.UnknownRate r] end) /\
    IntHop.time h' = t mod 2 ^ 24 /\
    IntHop.bytes h' = (b / wrap32 (IntHop.byteUnit * multi)) mod 2 ^ 20 /\
    IntHop.qlen h' = (q / wrap32 (IntHop.qlenUnit * multi)) mod 2 ^ 17 /\
    IntHop.lineRate h' = default (IntHop.lineRate h) (IntHop.rate_case r).
Proof.
  intros [Hb Hq]. unfold IntHop.Set_.
  rewrite (udiv_defined _ _ Hb), (udiv_defined _ _ Hq). simpl.
  destruct (IntHop.rate_case r) as [idx|] eqn:Hr; simpl.
  - eexists; split; [reflexivity|].
    autorewrite with hop_fields.
    pose proof (rate_case_range _ _ Hr).
    rewrite (Z.mod_small idx) by lia. auto.
  - eexists; split; [reflexivity|].
    autorewrite with hop_fields. auto.
Qed.

Lemma GetLineRate_index i r :
  supported_rates !! i = Some r ->
  nth i IntHop.lineRateValues 0 = r.
Proof.
  intros H. do 5 (destruct i as [|i]; [injection H as <-; reflexivity|]).
  discriminate H.
Qed.

(** C5.  [Set_] with a supported rate stores the table index of that rate in
    the rate field (so that [GetLineRate] returns the rate) and prints
    nothing; with any other rate it prints the error and the rate field, and
    with it [GetLineRate], keeps the value it had before the call. *)
Theorem Set_rate_field multi h t b q r :
  div_defined multi ->
  exists h' out,
    IntHop.Set_ multi h t b q r = Some (h', out) /\
    (forall i, supported_rates !! i = Some r ->
       IntHop.lineRate h' = Z.of_nat i /\ (i < 5)%nat /\ out = [] /\
       IntHop.GetLineRate h' = r) /\
    (r ∉ supported_rates ->
       out = [IntHop.UnknownRate r] /\
       IntHop.lineRate h' = IntHop.lineRate h /\
       IntHop.GetLineRate h' = IntHop.GetLineRate h).
Proof.
  intros Hd.
  destruct (Set_fields multi h t b q r Hd) as (h' & Hset & _ & _ & _ & Hrate).
  exists h'. eexists. split; [exact Hset|]. split.
  - intros i Hi. rewrite (rate_case_supported _ _ Hi) in Hrate |- *.
    simpl in Hrate. repeat split; auto.
    + apply lookup_lt_Some in Hi. exact Hi.
    + unfold IntHop.GetLineRate. rewrite Hrate, Nat2Z.id.
      apply GetLineRate_index, Hi.
  - intros Hr. rewrite (rate_case_unsupported _ Hr) in Hrate |- *.
    simpl in Hrate. repeat split; auto.
    unfold IntHop.GetLineRate. rewrite Hrate. reflexivity.
Qed.

Lemma Set_rate_field_witness :
  (exists h' out,
     IntHop.Set_ 1 4 7 300 90 (10 * 10 ^ 9) = Some (h', out) /\
     out = [IntHop.UnknownRate (10 * 10 ^ 9)] /\
     IntHop.lineRate h' = 4 /\ IntHop.GetLineRate h' = 400 * 10 ^ 9) /\
  (exists h' out,
     IntHop.Set_ 1 4 7 300 90 (100 * 10 ^ 9) = Some (h', out) /\
     out = [] /\
     IntHop.lineRate h' = 2 /\ IntHop.GetLineRate h' = 100 * 10 ^ 9).
Proof.
  split.
  - destruct (Set_rate_field 1 4 7 300 90 (10 * 10 ^ 9))
      as (h' & out & Hset & _ & Hunknown).
    + split; vm_compute; discriminate.
    + destruct Hunknown as (Hout & Hrate & Hget).
      * apply (bool_decide_unpack _). vm_compute. exact I.
      * exists h', out. repeat split; assumption.
  - destruct (Set_rate_field 1 4 7 300 90 (100 * 10 ^ 9))
      as (h' & out & Hset & Hknown & _).
    + split; vm_compute; discriminate.
    + destruct (Hknown 2%nat eq_refl) as (Hrate & _ & Hout & Hget).
      exists h', out. repeat split; assumption.
Defined.

(** C10.  A call of [Set_] whose rate matches no case still assigns the
    time, bytes and qlen fields their new quantized values; only the rate
    index keeps its prior value, so the hop changes although the call
    failed. *)
Theorem Set_unknown_rate_overwrites multi h t b q r :
  div_defined multi ->
  r ∉ supported_rates ->
  exists h',
    IntHop.Set_ multi h t b q r = Some (h', [IntHop.UnknownRate r]) /\
    IntHop.time h' = t mod 2 ^ IntHop.timeWidth /\
    IntHop.bytes h' =
      (b / wrap32 (IntHop.byteUnit * multi)) mod 2 ^ IntHop.bytesWidth /\
    IntHop.qlen h' =
      (q / wrap32 (IntHop.qlenUnit * multi)) mod 2 ^ IntHop.qlenWidth /\
    IntHop.lineRate h' = IntHop.lineRate h /\
    (IntHop.time h <> t mod 2 ^ IntHop.timeWidth -> h' <> h).
Proof.
  intros Hd Hr.
  destruct (Set_fields multi h t b q r Hd) as (h' & Hset & Ht & Hb & Hq & Hrate).
  rewrite (rate_case_unsupported _ Hr) in Hset, Hrate. simpl in Hrate.
  exists h'. repeat split; auto.
  intros Hne ->. apply Hne. exact Ht.
Qed.

Lemma Set_unknown_rate_overwrites_witness :
  exists h',
    IntHop.Set_ 1 4 7 300 90 (10 * 10 ^ 9)
      = Some (h', [IntHop.UnknownRate (10 * 10 ^ 9)]) /\
    IntHop.time h' = 7 /\ IntHop.bytes h' = 2 /\ IntHop.qlen h' = 1 /\
    IntHop.lineRate h' = 4 /\ h' <> 4.
Proof.
  destruct (Set_unknown_rate_overwrites 1 4 7 300 90 (10 * 10 ^ 9))
    as (h' & Hset & Ht & Hb & Hq & Hr & Hne).
  - split; vm_compute; discriminate.
  - apply (bool_decide_unpack _). vm_compute. exact I.
  - exists h'. repeat split; try assumption.
    apply Hne. vm_compute. discriminate.
Defined.

(** ** Quantization *)

Lemma quantize_bounds x d :
  0 < d -> x - d + 1 <= x / d * d <= x.
Proof.
  intros Hd. pose proof (Z.div_mod x d ltac:(lia)).
  pose proof (Z.mod_pos_bound x d Hd). lia.
Qed.

Lemma multi_fits_defined multi : multi_fits multi -> div_defined multi.
Proof.
  unfold multi_fits, div_defined, wrap32, IntHop.byteUnit, IntHop.qlenUnit.
  intros [H1 H2]. rewrite !Z.mod_small by lia. lia.
Qed.

(** The stored byte counter read back: an exact multiple of the unit, at
    most one unit below the input, as long as the quotient fits the field. *)
Lemma GetBytes_quantized multi h b :
  multi_fits multi ->
  0 <= b < 2 ^ IntHop.bytesWidth * (IntHop.byteUnit * multi) ->
  IntHop.bytes h = (b / wrap32 (IntHop.byteUnit * multi)) mod 2 ^ IntHop.bytesWidth ->
  IntHop.GetBytes multi h = b / (IntHop.byteUnit * multi) * (IntHop.byteUnit * multi).
Proof.
  unfold multi_fits, IntHop.GetBytes, wrap32, wrap64, IntHop.byteUnit, IntHop.bytesWidth.
  intros [H1 H2] Hb Hs. rewrite Hs. clear Hs.
  rewrite (Z.mod_small (128 * multi)) by lia.
  assert (0 <= b / (128 * multi) < 2 ^ 20) as Hq.
  { split; [apply Z.div_pos; lia|apply Z.div_lt_upper_bound; lia]. }
  rewrite (Z.mod_small (b / _)) by lia.
  rewrite (Z.mod_small (_ * 128)) by lia.
  rewrite Z.mod_small by nia. lia.
Qed.

Lemma GetQlen_quantized multi h q :
  multi_fits multi ->
  0 <= q < 2 ^ IntHop.qlenWidth * (IntHop.qlenUnit * multi) -> q < 2 ^ 32 ->
  IntHop.qlen h = (q / wrap32 (IntHop.qlenUnit * multi)) mod 2 ^ IntHop.qlenWidth ->
  IntHop.GetQlen multi h = q / (IntHop.qlenUnit * multi) * (IntHop.qlenUnit * multi).
Proof.
  unfold multi_fits, IntHop.GetQlen, wrap32, IntHop.byteUnit, IntHop.qlenUnit,
    IntHop.qlenWidth.
  intros [H1 H2] Hq Hq32 Hs. rewrite Hs. clear Hs.
  rewrite (Z.mod_small (80 * multi)) by lia.
  assert (0 <= q / (80 * multi) < 2 ^ 17) as Hs.
  { split; [apply Z.div_pos; lia|apply Z.div_lt_upper_bound; lia]. }
  pose proof (quantize_bounds q (80 * multi) ltac:(lia)) as Hb.
  rewrite (Z.mod_small (q / _)) by lia.
  rewrite (Z.mod_small (_ * 80)) by lia.
  rewrite Z.mod_small by nia. lia.
Qed.

(** C6, as amended.  For a multiplier whose 32-bit unit products are exact,
    [Set_] followed by [GetBytes] returns a multiple of [byteUnit * multi]
    in the interval from [bytes - byteUnit * multi + 1] to [bytes] provided
    the quotient fits the 20-bit field, that is for
    [bytes < 2^20 * byteUnit * multi]; likewise [GetQlen] for
    [qlen < 2^17 * qlenUnit * multi]. *)
Theorem quantization_round_trip multi h t b q r :
  multi_fits multi -> 0 <= b -> 0 <= q < 2 ^ 32 ->
  exists h' out,
    IntHop.Set_ multi h t b q r = Some (h', out) /\
    (b < 2 ^ IntHop.bytesWidth * (IntHop.byteUnit * multi) ->
     b - IntHop.byteUnit * multi + 1 <= IntHop.GetBytes multi h' <= b /\
     (IntHop.byteUnit * multi | IntHop.GetBytes multi h')) /\
    (q < 2 ^ IntHop.qlenWidth * (IntHop.qlenUnit * multi) ->
     q - IntHop.qlenUnit * multi + 1 <= IntHop.GetQlen multi h' <= q /\
     (IntHop.qlenUnit * multi | IntHop.GetQlen multi h')).
Proof.
  intros Hm Hb Hq.
  destruct (Set_fields multi h t b q r (multi_fits_defined _ Hm))
    as (h' & Hset & _ & Hbytes & Hqlen & _).
  exists h'. eexists. split; [exact Hset|].
  assert (0 < IntHop.byteUnit * multi /\ 0 < IntHop.qlenUnit * multi) as [Hu Hv].
  { unfold multi_fits, IntHop.byteUnit, IntHop.qlenUnit in *. lia. }
  split.
  - intros Hlt. rewrite (GetBytes_quantized multi h' b) by (auto; lia).
    split; [apply quantize_bounds, Hu|]. eexists; reflexivity.
  - intros Hlt. rewrite (GetQlen_quantized multi h' q) by (auto; lia).
    split; [apply quantize_bounds, Hv|]. eexists; reflexivity.
Qed.

Lemma quantization_round_trip_witness :
  exists h' out,
    IntHop.Set_ 1 0 7 1000 500 (25 * 10 ^ 9) = Some (h', out) /\
    (1000 - 128 + 1 <= IntHop.GetBytes 1 h' <= 1000 /\
     (128 | IntHop.GetBytes 1 h')) /\
    (500 - 80 + 1 <= IntHop.GetQlen 1 h' <= 500 /\
     (80 | IntHop.GetQlen 1 h')).
Proof.
  destruct (quantization_round_trip 1 0 7 1000 500 (25 * 10 ^ 9))
    as (h' & out & Hset & Hbytes & Hqlen).
  - split; vm_compute; reflexivity.
  - lia.
  - lia.
  - exists h', out. split; [exact Hset|]. split.
    + apply Hbytes. vm_compute. reflexivity.
    + apply Hqlen. vm_compute. reflexivity.
Defined.

(** C6, as stated, fails: a byte count of [2^27] has quotient [2^20], which
    the 20-bit field stores as zero, and [GetBytes] returns 0. *)
Lemma quantization_spec_fails : ~ quantization_spec.
Proof.
  intros H.
  destruct (H 1 0 0 (2 ^ 27) 0 (25 * 10 ^ 9)
              (IntHop.set_lineRate
                 (IntHop.set_qlen (IntHop.set_bytes (IntHop.set_time 0 0) (2 ^ 20)) 0) 0)
              []) as [[[Hlo _] _] _].
  - split; vm_compute; reflexivity.
  - lia.
  - lia.
  - reflexivity.
  - vm_compute in Hlo. apply Hlo. reflexivity.
Qed.

(** ** Wrap-around deltas *)

Lemma GetTimeDelta_wrap a b :
  IntHop.GetTimeDelta a b =
    (if IntHop.time b <=? IntHop.time a
     then IntHop.time a - IntHop.time b
     else IntHop.time a - IntHop.time b + 2 ^ IntHop.timeWidth) /\
  IntHop.GetTimeDelta a b = (IntHop.time a - IntHop.time b) mod 2 ^ IntHop.timeWidth /\
  0 <= IntHop.GetTimeDelta a b.
Proof.
  pose proof (time_range a). pose proof (time_range b).
  unfold IntHop.GetTimeDelta, wrap64, IntHop.timeWidth.
  change (Z.shiftl 1 24) with (2 ^ 24).
  destruct (Z.leb_spec (IntHop.time b) (IntHop.time a)).
  - rewrite Z.mod_small by lia. rewrite (Z.mod_small (_ - _)) by lia. lia.
  - rewrite Z.mod_small by lia.
    replace (IntHop.time a - IntHop.time b)
      with (IntHop.time a + 2 ^ 24 - IntHop.time b + (-1) * 2 ^ 24) by lia.
    rewrite Z.mod_add by lia. rewrite Z.mod_small by lia. lia.
Qed.

(** While the scaled distance fits 32 bits (a multiplier of at most 32),
    [GetBytesDelta] is the wrap distance of the two 20-bit counters times
    [byteUnit * multi]. *)
Lemma GetBytesDelta_wrap multi a b :
  0 <= multi <= 32 ->
  IntHop.GetBytesDelta multi a b =
    (if IntHop.bytes b <=? IntHop.bytes a
     then IntHop.bytes a - IntHop.bytes b
     else IntHop.bytes a - IntHop.bytes b + 2 ^ IntHop.bytesWidth)
    * (IntHop.byteUnit * multi) /\
  0 <= IntHop.GetBytesDelta multi a b.
Proof.
  intros Hm. pose proof (bytes_range a). pose proof (bytes_range b).
  unfold IntHop.GetBytesDelta, wrap64, wrap32, IntHop.bytesWidth, IntHop.byteUnit.
  change (Z.shiftl 1 20) with (2 ^ 20).
  destruct (Z.leb_spec (IntHop.bytes b) (IntHop.bytes a)).
  - rewrite (Z.mod_small (_ * 128)) by lia.
    rewrite (Z.mod_small (_ * multi)) by nia.
    rewrite Z.mod_small by nia. nia.
  - rewrite (Z.mod_small (_ * 128)) by lia.
    rewrite (Z.mod_small (_ * multi)) by nia.
    rewrite Z.mod_small by nia. nia.
Qed.

(** C7.  With a multiplier of 33 and counters [2^20 - 1] and [0], the wrap
    distance scaled by [byteUnit * multi] is 4429180800, but
    [GetBytesDelta] multiplies in 32 bits and returns 134213504. *)
Theorem GetBytesDelta_overflow :
  let a := IntHop.set_bytes 0 (2 ^ 20 - 1) in
  let b := 0 in
  IntHop.bytes a = 2 ^ 20 - 1 /\ IntHop.bytes b = 0 /\
  (IntHop.bytes a - IntHop.bytes b) * (IntHop.byteUnit * 33) = 4429180800 /\
  IntHop.GetBytesDelta 33 a b = 134213504 /\
  IntHop.GetBytes 33 a = 4429180800.
Proof. vm_compute. repeat split; reflexivity. Qed.

(** The wrap-around example of the specification: a counter that went from
    [2^20 - 3] past zero to 5 has advanced by 8 units. *)
Example GetBytesDelta_past_zero :
  IntHop.GetBytesDelta 1 (IntHop.set_bytes 0 5) (IntHop.set_bytes 0 (2 ^ 20 - 3))
  = 8 * IntHop.byteUnit.
Proof. reflexivity. Qed.

Example GetTimeDelta_past_zero :
  IntHop.GetTimeDelta (IntHop.set_time 0 5) (IntHop.set_time 0 (2 ^ 24 - 3)) = 8.
Proof. reflexivity. Qed.

(** ** The byte buffer *)

Lemma le_bytes_length n v : length (le_bytes n v) = n.
Proof. revert v. induction n as [|n IH]; intros v; simpl; [|rewrite IH]; reflexivity. Qed.

Lemma le_value_le_bytes n v :
  le_value (le_bytes n v) = v mod 2 ^ (8 * Z.of_nat n).
Proof.
  revert v. induction n as [|n IH]; intros v.
  - simpl. rewrite Z.mod_1_r. reflexivity.
  - cbn [le_bytes le_value]. rewrite IH.
    rewrite <- !Z.land_ones by lia.
    apply Z.bits_inj'. intros i Hi.
    rewrite Z.lor_spec, !Z.land_spec, Z.shiftl_spec, !testbit_ones_nonneg by lia.
    change 255 with (Z.ones 8). rewrite testbit_ones_nonneg by lia.
    destruct (Z.ltb_spec i 8).
    + rewrite (Z.testbit_neg_r _ (i - 8)) by lia.
      destruct (Z.ltb_spec i (8 * Z.of_nat (S n))); [|lia].
      rewrite orb_false_r. reflexivity.
    + rewrite Z.land_spec, Z.shiftr_spec, testbit_ones_nonneg by lia.
      replace (i - 8 + 8) with i by lia.
      rewrite andb_false_r. simpl.
      destruct (Z.ltb_spec (i - 8) (8 * Z.of_nat n)),
               (Z.ltb_spec i (8 * Z.of_nat (S n))); try lia; reflexivity.
Qed.

Lemma write_bytes_nil i : write_bytes i [] = i.
Proof.
  destruct i as [d c]. unfold write_bytes. simpl.
  rewrite Nat.add_0_r, take_drop. reflexivity.
Qed.

Lemma write_bytes_app i a b :
  (Buffer.cur i + length a <= length (Buffer.data i))%nat ->
  write_bytes (write_bytes i a) b = write_bytes i (a ++ b).
Proof.
  destruct i as [d c]. unfold write_bytes. simpl. intros Hroom.
  rewrite length_app, Nat.add_assoc. f_equal.
  assert (length (take c d) = c) as Hc by (rewrite length_take; lia).
  rewrite (app_assoc (take c d) a).
  rewrite take_app_length' by (rewrite length_app; lia).
  rewrite drop_app_ge by (rewrite length_app; lia).
  rewrite length_app, Hc.
  replace (c + length a + length b - (c + length a))%nat with (length b) by lia.
  rewrite drop_drop, <- !app_assoc. reflexivity.
Qed.

Lemma write_bytes_length i bs :
  (Buffer.cur i + length bs <= length (Buffer.data i))%nat ->
  length (Buffer.data (write_bytes i bs)) = length (Buffer.data i).
Proof.
  intros H. unfold write_bytes. simpl.
  rewrite !length_app, length_take, length_drop. lia.
Qed.

Lemma WriteU8_write_bytes i v :
  (Buffer.cur i < length (Buffer.data i))%nat ->
  Buffer.WriteU8 i v = write_bytes i [wrap8 v].
Proof.
  intros H. unfold Buffer.WriteU8, write_bytes. simpl.
  rewrite insert_take_drop by exact H.
  rewrite Nat.add_1_r. reflexivity.
Qed.

Lemma wrap8_byte v : wrap8 (Z.land v 255) = Z.land v 255.
Proof.
  unfold wrap8. change 255 with (Z.ones 8).
  rewrite Z.land_ones by lia. apply Z.mod_mod. lia.
Qed.

Lemma WriteLE_write_bytes n i v :
  (Buffer.cur i + n <= length (Buffer.data i))%nat ->
  Buffer.WriteLE n i v = write_bytes i (le_bytes n v).
Proof.
  revert i v. induction n as [|n IH]; intros i v Hroom.
  - simpl. symmetry. apply write_bytes_nil.
  - cbn [Buffer.WriteLE le_bytes].
    rewrite WriteU8_write_bytes, wrap8_byte by lia.
    rewrite IH.
    + apply (write_bytes_app i [_]). simpl. lia.
    + rewrite write_bytes_length by (simpl; lia). simpl. lia.
Qed.

Lemma WriteLE_cur n i v : Buffer.cur (Buffer.WriteLE n i v) = (Buffer.cur i + n)%nat.
Proof.
  revert i v. induction n as [|n IH]; intros i v; simpl.
  - lia.
  - rewrite IH. simpl. lia.
Qed.

Lemma ReadLE_cur n i : Buffer.cur (Buffer.ReadLE n i).2 = (Buffer.cur i + n)%nat.
Proof.
  revert i. induction n as [|n IH]; intros i; simpl.
  - lia.
  - specialize (IH {| Buffer.data := Buffer.data i; Buffer.cur := S (Buffer.cur i) |}).
    destruct (Buffer.ReadLE n _) as [hi i2]. simpl in *. lia.
Qed.

(** Reading [n] bytes returns the value of the bytes under the cursor. *)
Lemma ReadLE_bytes n i bs rest :
  length bs = n ->
  drop (Buffer.cur i) (Buffer.data i) = bs ++ rest ->
  Buffer.ReadLE n i = (le_value bs, skip i n) /\
  drop (Buffer.cur i + n) (Buffer.data i) = rest.
Proof.
  revert i bs. induction n as [|n IH]; intros [d c] bs Hlen Hdrop; simpl in *.
  - destruct bs; [|discriminate]. simpl in *.
    unfold skip. simpl. rewrite Nat.add_0_r. auto.
  - destruct bs as [|b bs]; [discriminate|]. injection Hlen as Hlen.
    assert (d !! c = Some b) as Hb.
    { rewrite <- (Nat.add_0_r c), <- lookup_drop, Hdrop. reflexivity. }
    assert (drop (S c) d = bs ++ rest) as Hd'.
    { rewrite <- (Nat.add_1_r c), <- drop_drop, Hdrop. reflexivity. }
    unfold Buffer.ReadU8. simpl. rewrite Hb. simpl.
    destruct (IH {| Buffer.data := d; Buffer.cur := S c |} bs Hlen Hd') as [-> Hrest].
    unfold skip in *. simpl in *.
    replace (c + S n)%nat with (S (c + n)) by lia. auto.
Qed.

Lemma drop_write_bytes i bs :
  (Buffer.cur i + length bs <= length (Buffer.data i))%nat ->
  drop (Buffer.cur i) (Buffer.data (write_bytes i bs)) =
    bs ++ drop (Buffer.cur i + length bs) (Buffer.data i).
Proof.
  intros H. unfold write_bytes. simpl.
  rewrite drop_app_length'; [reflexivity|]. rewrite length_take. lia.
Qed.

(** ** Serialize and Deserialize *)

Lemma buf0_range x : 0 <= IntHop.buf0 x < 2 ^ 32.
Proof. apply bf_get_range. lia. Qed.

Lemma buf1_range x : 0 <= IntHop.buf1 x < 2 ^ 32.
Proof. apply bf_get_range. lia. Qed.

(** The two 32-bit halves determine a 64-bit storage unit. *)
Lemma hop_rebuild x y :
  hop_wf x -> hop_wf y ->
  IntHop.set_buf1 (IntHop.set_buf0 y (IntHop.buf0 x)) (IntHop.buf1 x) = x.
Proof.
  unfold hop_wf, IntHop.set_buf1, IntHop.set_buf0, IntHop.buf0, IntHop.buf1.
  intros Hx Hy.
  pose proof (proj1 (unsigned_testbit 64 x ltac:(lia)) Hx) as Hxb.
  pose proof (proj1 (unsigned_testbit 64 y ltac:(lia)) Hy) as Hyb.
  apply Z.bits_inj'. intros i Hi.
  rewrite !testbit_bf_set by lia.
  destruct (Z.leb_spec 32 i), (Z.ltb_spec i (32 + 32)); simpl.
  - rewrite testbit_bf_get by lia.
    destruct (Z.ltb_spec (i - 32) 32); [|lia]. simpl. f_equal. lia.
  - rewrite Hxb by lia.
    destruct (Z.leb_spec 0 i), (Z.ltb_spec i (0 + 32)); simpl; try lia.
    apply Hyb. lia.
  - destruct (Z.leb_spec 0 i), (Z.ltb_spec i (0 + 32)); simpl; try lia.
    rewrite testbit_bf_get by lia.
    destruct (Z.ltb_spec (i - 0) 32); [|lia]. simpl. f_equal. lia.
  - lia.
Qed.

Lemma hop_bytes_length x : length (hop_bytes x) = 8%nat.
Proof. unfold hop_bytes. rewrite length_app, !le_bytes_length. reflexivity. Qed.

Lemma hop_at_lookup h j x : IntHeader.hop h !! j = Some x -> IntHeader.hop_at h j = x.
Proof. apply nth_lookup_Some. Qed.

Lemma hop_at_set_hop h j x :
  (j < length (IntHeader.hop h))%nat ->
  IntHeader.hop_at (IntHeader.set_hop h j x) j = x.
Proof.
  intros H. apply hop_at_lookup. simpl. apply list_lookup_insert_eq, H.
Qed.

Lemma hop_at_wf h j : Forall hop_wf (IntHeader.hop h) -> hop_wf (IntHeader.hop_at h j).
Proof.
  intros H. unfold IntHeader.hop_at. rewrite nth_lookup.
  destruct (IntHeader.hop h !! j) as [x|] eqn:E; simpl.
  - eapply Forall_lookup_1; eauto.
  - unfold hop_wf. lia.
Qed.

Lemma flat_map_hop_at h :
  length (IntHeader.hop h) = IntHeader.maxHop ->
  flat_map (fun j => hop_bytes (IntHeader.hop_at h j)) (seq 0 IntHeader.maxHop)
  = flat_map hop_bytes (IntHeader.hop h).
Proof.
  destruct h as [hs n]. simpl. intros H.
  do 5 (destruct hs as [|? hs]; [discriminate H|]).
  destruct hs; [reflexivity|discriminate H].
Qed.

Lemma serialize_hops_write h js i :
  (Buffer.cur i + 8 * length js <= length (Buffer.data i))%nat ->
  fold_left (IntHeader.serialize_hop h) js i
  = write_bytes i (flat_map (fun j => hop_bytes (IntHeader.hop_at h j)) js).
Proof.
  revert i. induction js as [|j js IH]; intros i Hroom.
  - simpl. symmetry. apply write_bytes_nil.
  - cbn [fold_left flat_map length] in *.
    unfold IntHeader.serialize_hop at 2, Buffer.WriteU32.
    rewrite (WriteLE_write_bytes 4 i) by lia.
    rewrite WriteLE_write_bytes
      by (rewrite write_bytes_length; simpl; rewrite ?le_bytes_length; lia).
    rewrite write_bytes_app by (rewrite le_bytes_length; lia).
    fold (hop_bytes (IntHeader.hop_at h j)).
    rewrite IH.
    + apply write_bytes_app. rewrite hop_bytes_length. lia.
    + rewrite write_bytes_length by (rewrite hop_bytes_length; lia).
      unfold write_bytes. cbn [Buffer.cur]. rewrite hop_bytes_length. lia.
Qed.

Lemma serialize_hops_cur h js i :
  Buffer.cur (fold_left (IntHeader.serialize_hop h) js i)
  = (Buffer.cur i + 8 * length js)%nat.
Proof.
  revert i. induction js as [|j js IH]; intros i; simpl.
  - lia.
  - rewrite IH. unfold IntHeader.serialize_hop, Buffer.WriteU32.
    rewrite !WriteLE_cur. lia.
Qed.

Lemma power_lo8_range h : 0 <= IntHeader.power_lo8 h < 2 ^ 8.
Proof. apply bf_get_range. lia. Qed.

Lemma power_range h : 0 <= IntHeader.power h < 2 ^ 16.
Proof. apply bf_get_range. lia. Qed.

(** With room in the buffer, [Serialize] lays the wire image of the header
    over the bytes under the cursor. *)
Lemma Serialize_wire g h start :
  (Buffer.cur start + length (wire g h) <= length (Buffer.data start))%nat ->
  IntHeader.Serialize g h start = write_bytes start (wire g h).
Proof.
  unfold IntHeader.Serialize, wire.
  destruct (IntHeader.mode g); intros Hroom.
  - rewrite length_app, le_bytes_length in Hroom.
    assert (length (flat_map (fun j => hop_bytes (IntHeader.hop_at h j))
                      (seq 0 IntHeader.maxHop)) = 40%nat) as Hlen by reflexivity.
    rewrite Hlen in Hroom.
    rewrite serialize_hops_write by (simpl; lia).
    unfold Buffer.WriteU16.
    rewrite WriteLE_write_bytes
      by (rewrite write_bytes_length; simpl; rewrite ?Hlen; lia).
    apply write_bytes_app. rewrite Hlen. lia.
  - rewrite le_bytes_length in Hroom.
    apply WriteLE_write_bytes. exact Hroom.
  - destruct (IntHeader.pint_bytes g =? 1).
    + simpl in Hroom. rewrite WriteU8_write_bytes by lia.
      unfold wrap8. rewrite Z.mod_small by apply power_lo8_range. reflexivity.
    + destruct (IntHeader.pint_bytes g =? 2).
      * rewrite le_bytes_length in Hroom. apply WriteLE_write_bytes. exact Hroom.
      * symmetry. apply write_bytes_nil.
  - symmetry. apply write_bytes_nil.
Qed.

Lemma deserialize_hop_bytes h i j x rest :
  (j < length (IntHeader.hop h))%nat ->
  hop_wf x -> Forall hop_wf (IntHeader.hop h) ->
  drop (Buffer.cur i) (Buffer.data i) = hop_bytes x ++ rest ->
  IntHeader.deserialize_hop (h, i) j = (IntHeader.set_hop h j x, skip i 8) /\
  drop (Buffer.cur i + 8) (Buffer.data i) = rest.
Proof.
  intros Hj Hx Hh Hdrop. unfold hop_bytes in Hdrop. rewrite <- app_assoc in Hdrop.
  unfold IntHeader.deserialize_hop, Buffer.ReadU32.
  destruct (ReadLE_bytes 4 i _ _ (le_bytes_length 4 _) Hdrop) as [-> Hdrop1].
  destruct (ReadLE_bytes 4 (skip i 4) _ _ (le_bytes_length 4 _) Hdrop1) as [-> Hdrop2].
  rewrite !le_value_le_bytes.
  rewrite (Z.mod_small (IntHop.buf0 x)) by apply buf0_range.
  rewrite (Z.mod_small (IntHop.buf1 x)) by apply buf1_range.
  rewrite hop_at_set_hop by exact Hj.
  rewrite hop_rebuild by (auto using hop_at_wf).
  unfold IntHeader.set_hop, skip in *. simpl in *.
  rewrite list_insert_insert_eq.
  replace (Buffer.cur i + 4 + 4)%nat with (Buffer.cur i + 8)%nat in * by lia.
  auto.
Qed.

Lemma deserialize_hops_bytes k : forall s h i xs rest,
  length xs = k -> Forall hop_wf xs -> Forall hop_wf (IntHeader.hop h) ->
  (s + k <= length (IntHeader.hop h))%nat ->
  drop (Buffer.cur i) (Buffer.data i) = flat_map hop_bytes xs ++ rest ->
  fold_left IntHeader.deserialize_hop (seq s k) (h, i)
  = ({| IntHeader.hop := take s (IntHeader.hop h) ++ xs
                         ++ drop (s + k) (IntHeader.hop h);
        IntHeader.nhop := IntHeader.nhop h |}, skip i (8 * k)) /\
  drop (Buffer.cur i + 8 * k) (Buffer.data i) = rest.
Proof.
  induction k as [|k IH]; intros s h i xs rest Hlen Hxs Hh Hs Hdrop.
  - destruct xs; [|discriminate]. cbn [seq fold_left flat_map app] in *.
    rewrite Nat.mul_0_r, !Nat.add_0_r, take_drop. unfold skip.
    rewrite Nat.add_0_r. destruct h, i; auto.
  - destruct xs as [|x xs]; [discriminate|]. injection Hlen as Hlen.
    apply Forall_cons in Hxs as [Hx Hxs].
    cbn [flat_map] in Hdrop. rewrite <- app_assoc in Hdrop.
    cbn [seq fold_left].
    destruct (deserialize_hop_bytes h i s x _ ltac:(lia) Hx Hh Hdrop) as [-> Hdrop1].
    destruct (IH (S s) (IntHeader.set_hop h s x) (skip i 8) xs rest Hlen Hxs)
      as [-> Hdrop2].
    + cbn [IntHeader.set_hop IntHeader.hop]. apply Forall_insert; assumption.
    + cbn [IntHeader.set_hop IntHeader.hop]. rewrite length_insert. lia.
    + exact Hdrop1.
    + unfold skip in *. cbn [Buffer.cur Buffer.data IntHeader.set_hop
                              IntHeader.hop IntHeader.nhop] in *.
      replace (Buffer.cur i + 8 + 8 * k)%nat
        with (Buffer.cur i + 8 * S k)%nat in * by lia.
      split; [|exact Hdrop2]. f_equal. f_equal.
      rewrite (take_S_r _ s x) by (apply list_lookup_insert_eq; lia).
      rewrite take_insert_ge by lia.
      rewrite drop_insert_lt by lia.
      rewrite <- app_assoc. cbn [app].
      replace (S s + k)%nat with (s + S k)%nat by lia. reflexivity.
Qed.

Lemma deserialize_hop_cur st j :
  Buffer.cur (IntHeader.deserialize_hop st j).2 = (Buffer.cur st.2 + 8)%nat.
Proof.
  destruct st as [h i]. unfold IntHeader.deserialize_hop, Buffer.ReadU32.
  pose proof (ReadLE_cur 4 i) as H0. destruct (Buffer.ReadLE 4 i) as [w0 i1].
  pose proof (ReadLE_cur 4 i1) as H1. destruct (Buffer.ReadLE 4 i1) as [w1 i2].
  simpl in *. lia.
Qed.

Lemma deserialize_hops_cur js st :
  Buffer.cur (fold_left IntHeader.deserialize_hop js st).2
  = (Buffer.cur st.2 + 8 * length js)%nat.
Proof.
  revert st. induction js as [|j js IH]; intros st; cbn [fold_left length].
  - lia.
  - rewrite IH, deserialize_hop_cur. lia.
Qed.

(** The number of bytes [Serialize] writes, by mode. *)
Lemma Serialize_distance g h i :
  distance i (IntHeader.Serialize g h i) =
  match IntHeader.mode g with
  | IntHeader.NORMAL => 42
  | IntHeader.TS => 8
  | IntHeader.PINT =>
      if IntHeader.pint_bytes g =? 1 then 1
      else if IntHeader.pint_bytes g =? 2 then 2 else 0
  | IntHeader.NONE => 0
  end.
Proof.
  unfold distance, IntHeader.Serialize, Buffer.WriteU16, Buffer.WriteU64.
  destruct (IntHeader.mode g).
  - rewrite WriteLE_cur, serialize_hops_cur. simpl length. lia.
  - rewrite WriteLE_cur. lia.
  - destruct (IntHeader.pint_bytes g =? 1); [simpl; lia|].
    destruct (IntHeader.pint_bytes g =? 2); [rewrite WriteLE_cur|]; lia.
  - lia.
Qed.

(** The number of bytes [Deserialize] consumes, by mode, and the value it
    returns. *)
Lemma Deserialize_distance g d i :
  distance i (IntHeader.Deserialize g d i).1.2 =
  match IntHeader.mode g with
  | IntHeader.NORMAL => 42
  | IntHeader.TS => 8
  | IntHeader.PINT =>
      if IntHeader.pint_bytes g =? 1 then 1
      else if IntHeader.pint_bytes g =? 2 then 2 else 0
  | IntHeader.NONE => 0
  end /\
  (IntHeader.Deserialize g d i).2 = IntHeader.GetStaticSize g.
Proof.
  unfold distance, IntHeader.Deserialize, Buffer.ReadU16, Buffer.ReadU64.
  destruct (IntHeader.mode g).
  - pose proof (deserialize_hops_cur (seq 0 IntHeader.maxHop) (d, i)) as H0.
    destruct (fold_left _ _ _) as [h1 i1].
    pose proof (ReadLE_cur 2 i1) as H1. destruct (Buffer.ReadLE 2 i1) as [n i2].
    simpl in *. split; [lia|reflexivity].
  - pose proof (ReadLE_cur 8 i) as H1. destruct (Buffer.ReadLE 8 i) as [n i2].
    simpl in *. split; [lia|reflexivity].
  - destruct (IntHeader.pint_bytes g =? 1); [simpl; split; [lia|reflexivity]|].
    destruct (IntHeader.pint_bytes g =? 2).
    + pose proof (ReadLE_cur 2 i) as H1. destruct (Buffer.ReadLE 2 i) as [n i2].
      simpl in *. split; [lia|reflexivity].
    + simpl. split; [lia|reflexivity].
  - simpl. split; [lia|reflexivity].
Qed.

Lemma GetStaticSize_table g :
  IntHeader.GetStaticSize g =
  match IntHeader.mode g with
  | IntHeader.NORMAL => 42
  | IntHeader.TS => 8
  | IntHeader.PINT => 2
  | IntHeader.NONE => 0
  end.
Proof. unfold IntHeader.GetStaticSize. destruct (IntHeader.mode g); reflexivity. Qed.

(** Outside PINT mode, and in PINT mode with two bytes, [GetStaticSize] is
    the number of bytes written, the number consumed and the value returned
    by [Deserialize]. *)
Lemma static_size_agrees g h d i :
  IntHeader.mode g <> IntHeader.PINT \/ IntHeader.pint_bytes g = 2 ->
  distance i (IntHeader.Serialize g h i) = IntHeader.GetStaticSize g /\
  distance i (IntHeader.Deserialize g d i).1.2 = IntHeader.GetStaticSize g /\
  (IntHeader.Deserialize g d i).2 = IntHeader.GetStaticSize g.
Proof.
  intros Hg. destruct (Deserialize_distance g d i) as [Hd Hr].
  rewrite Serialize_distance, Hd, Hr, GetStaticSize_table.
  destruct (IntHeader.mode g); auto.
  destruct Hg as [Hg| ->]; [contradiction|]. auto.
Qed.

(** C2.  In PINT mode with a configured width of one byte, [Serialize]
    writes one byte and [Deserialize] consumes one byte, but [GetStaticSize],
    and with it the value [Deserialize] returns, is [sizeof(pint)], 2. *)
Theorem GetStaticSize_pint_one_byte multi h d i :
  let g := {| IntHeader.mode := IntHeader.PINT; IntHeader.pint_bytes := 1;
              IntHeader.multi := multi |} in
  IntHeader.GetStaticSize g = 2 /\
  distance i (IntHeader.Serialize g h i) = 1 /\
  distance i (IntHeader.Deserialize g d i).1.2 = 1 /\
  (IntHeader.Deserialize g d i).2 = 2.
Proof.
  intros g. destruct (Deserialize_distance g d i) as [Hd Hr].
  rewrite Serialize_distance, Hd, Hr. repeat split; reflexivity.
Qed.

Lemma bf_set_whole y v : hop_wf y -> hop_wf v -> bf_set 0 64 y v = v.
Proof.
  unfold hop_wf. intros Hy Hv.
  pose proof (proj1 (unsigned_testbit 64 y ltac:(lia)) Hy) as Hyb.
  pose proof (proj1 (unsigned_testbit 64 v ltac:(lia)) Hv) as Hvb.
  apply Z.bits_inj'. intros i Hi. rewrite testbit_bf_set by lia.
  destruct (Z.leb_spec 0 i), (Z.ltb_spec i (0 + 64)); simpl; try lia.
  - f_equal. lia.
  - rewrite Hyb, Hvb by lia. reflexivity.
Qed.

Lemma ReadU8_byte i b rest :
  drop (Buffer.cur i) (Buffer.data i) = b :: rest ->
  Buffer.ReadU8 i = (b, skip i 1).
Proof.
  intros Hdrop. unfold Buffer.ReadU8, skip.
  assert (Buffer.data i !! Buffer.cur i = Some b) as ->.
  { rewrite <- (Nat.add_0_r (Buffer.cur i)), <- lookup_drop, Hdrop. reflexivity. }
  rewrite Nat.add_1_r. reflexivity.
Qed.

Lemma wire_length g h :
  Z.of_nat (length (wire g h))
  = match IntHeader.mode g with
    | IntHeader.NORMAL => 42
    | IntHeader.TS => 8
    | IntHeader.PINT =>
        if IntHeader.pint_bytes g =? 1 then 1
        else if IntHeader.pint_bytes g =? 2 then 2 else 0
    | IntHeader.NONE => 0
    end.
Proof.
  unfold wire. destruct (IntHeader.mode g); try reflexivity.
  destruct (IntHeader.pint_bytes g =? 1); [reflexivity|].
  destruct (IntHeader.pint_bytes g =? 2); reflexivity.
Qed.

(** Round trip.  A well-formed header written into a buffer with enough room
    and read back into any well-formed header is recovered in every field
    observable in the active mode, and [Deserialize] consumes the bytes that
    [Serialize] wrote. *)
Lemma Serialize_Deserialize g h d start :
  header_wf h -> header_wf d ->
  (IntHeader.mode g = IntHeader.PINT ->
   IntHeader.pint_bytes g = 1 \/ IntHeader.pint_bytes g = 2) ->
  (Buffer.cur start + length (wire g h) <= length (Buffer.data start))%nat ->
  let after := IntHeader.Serialize g h start in
  let r := IntHeader.Deserialize g d (rewind start after) in
  observable_eq g r.1.1 h /\
  distance start r.1.2 = distance start after.
Proof.
  intros (Hlen & Hhops & Hn) (Hlend & Hhopsd & Hnd) Hpb Hroom after r.
  split.
  2:{ subst r after. unfold distance at 1.
      pose proof (Deserialize_distance g d (rewind start (IntHeader.Serialize g h start)))
        as [Hd _].
      unfold distance in Hd at 1. cbn [rewind Buffer.cur] in Hd.
      rewrite Hd, Serialize_distance. reflexivity. }
  subst r after. rewrite Serialize_wire by exact Hroom.
  pose proof (drop_write_bytes start (wire g h) Hroom) as Hdrop.
  set (i := rewind start (write_bytes start (wire g h))).
  change (drop (Buffer.cur i) (Buffer.data i) =
          wire g h ++ drop (Buffer.cur start + length (wire g h)) (Buffer.data start))
    in Hdrop.
  revert Hdrop. generalize (drop (Buffer.cur start + length (wire g h)) (Buffer.data start)).
  intros rest Hdrop. clearbody i.
  unfold observable_eq, IntHeader.Deserialize, wire, IntHeader.GetTs, IntHeader.GetPower in *.
  destruct (IntHeader.mode g).
  - rewrite flat_map_hop_at, <- app_assoc in Hdrop by exact Hlen.
    destruct (deserialize_hops_bytes 5 0 d i (IntHeader.hop h) _ Hlen Hhops Hhopsd
                ltac:(rewrite Hlend; reflexivity) Hdrop) as [Hfold Hdrop1].
    unfold IntHeader.maxHop. rewrite Hfold.
    unfold Buffer.ReadU16.
    destruct (ReadLE_bytes 2 (skip i (8 * 5)) _ _ (le_bytes_length 2 _) Hdrop1) as [-> _].
    cbn [fst snd IntHeader.hop IntHeader.nhop].
    rewrite le_value_le_bytes, Z.mod_small by exact Hn.
    rewrite (drop_ge (IntHeader.hop d)) by (rewrite Hlend; reflexivity).
    rewrite app_nil_r. auto.
  - unfold Buffer.ReadU64.
    destruct (ReadLE_bytes 8 i _ _ (le_bytes_length 8 _) Hdrop) as [-> _].
    cbn [fst snd]. rewrite le_value_le_bytes.
    assert (hop_wf (IntHeader.ts h)) as Hts by (apply hop_at_wf, Hhops).
    rewrite Z.mod_small by exact Hts.
    unfold IntHeader.set_ts, IntHeader.ts at 1.
    rewrite hop_at_set_hop by (rewrite Hlend; unfold IntHeader.maxHop; lia).
    apply bf_set_whole; [apply hop_at_wf, Hhopsd|exact Hts].
  - destruct (Hpb eq_refl) as [Hp|Hp]; rewrite Hp in *; cbn [Z.eqb Pos.eqb] in *.
    + rewrite (ReadU8_byte i _ _ Hdrop). cbn [fst snd].
      unfold IntHeader.set_power_lo8, IntHeader.power_lo8 at 1.
      rewrite hop_at_set_hop by (rewrite Hlend; unfold IntHeader.maxHop; lia).
      rewrite bf_get_set_same by lia.
      apply Z.mod_small, power_lo8_range.
    + unfold Buffer.ReadU16.
      destruct (ReadLE_bytes 2 i _ _ (le_bytes_length 2 _) Hdrop) as [-> _].
      cbn [fst snd]. rewrite le_value_le_bytes.
      rewrite (Z.mod_small (IntHeader.power h)) by apply power_range.
      unfold IntHeader.set_power, IntHeader.power at 1.
      rewrite hop_at_set_hop by (rewrite Hlend; unfold IntHeader.maxHop; lia).
      rewrite bf_get_set_same by lia.
      apply Z.mod_small, power_range.
  - exact I.
Qed.

(** C3.  In PINT mode with a configured width of one byte, reading back what
    [Serialize] wrote consumes one byte, where [GetStaticSize] is 2. *)
Theorem round_trip_pint_one_byte multi h d start :
  let g := {| IntHeader.mode := IntHeader.PINT; IntHeader.pint_bytes := 1;
              IntHeader.multi := multi |} in
  let after := IntHeader.Serialize g h start in
  let r := IntHeader.Deserialize g d (rewind start after) in
  distance start r.1.2 = 1 /\
  distance start after = 1 /\
  IntHeader.GetStaticSize g = 2 /\
  distance start r.1.2 <> IntHeader.GetStaticSize g.
Proof.
  intros g after r.
  assert (distance start r.1.2 = 1) as Hd.
  { subst r. unfold distance.
    pose proof (Deserialize_distance g d (rewind start after)) as [Hd _].
    unfold distance in Hd. exact Hd. }
  repeat split.
  - exact Hd.
  - subst after. rewrite Serialize_distance. reflexivity.
  - rewrite Hd. discriminate.
Qed.

(** ** PushHop *)

Lemma ring_slot_lt h : (ring_slot h < IntHeader.maxHop)%nat.
Proof.
  unfold ring_slot, IntHeader.maxHop.
  pose proof (Z.mod_pos_bound (IntHeader.nhop h) (Z.of_nat 5) ltac:(lia)). lia.
Qed.

Lemma PushHop_index h :
  Z.to_nat (wrap32 (IntHeader.nhop h mod Z.of_nat IntHeader.maxHop)) = ring_slot h.
Proof.
  unfold ring_slot, wrap32, IntHeader.maxHop.
  pose proof (Z.mod_pos_bound (IntHeader.nhop h) (Z.of_nat 5) ltac:(lia)).
  rewrite (Z.mod_small (_ mod _)) by lia. reflexivity.
Qed.

Lemma hop_at_insert_ne (l : list IntHop.t) n i j x :
  j <> i ->
  IntHeader.hop_at (IntHeader.mkIntHeader (<[i := x]> l) n) j
  = nth j l 0.
Proof.
  intros H. unfold IntHeader.hop_at. cbn [IntHeader.hop].
  rewrite !nth_lookup, list_lookup_insert_ne by auto. reflexivity.
Qed.

Ltac header_wf_closed :=
  unfold header_wf; cbn [IntHeader.hop IntHeader.nhop length];
  split; [reflexivity|split; [|lia]];
  repeat (constructor; [unfold hop_wf; lia|]); constructor.

(** C4, as amended.  [PushHop] leaves the header unchanged unless the mode is
    NORMAL; in NORMAL mode the hop in ring slot [nhop mod maxHop] is
    overwritten by [Set_] with the given arguments, every other slot is
    unchanged, and the 16-bit counter is incremented modulo [2^16]. *)
Theorem PushHop_ring g h t b q r :
  header_wf h ->
  (IntHeader.mode g = IntHeader.NORMAL -> div_defined (IntHeader.multi g)) ->
  exists h' out,
    IntHeader.PushHop g h t b q r = Some (h', out) /\
    (IntHeader.mode g <> IntHeader.NORMAL -> h' = h /\ out = []) /\
    (IntHeader.mode g = IntHeader.NORMAL ->
     pushed g h t b q r (wrap16 (IntHeader.nhop h + 1)) h' out).
Proof.
  intros (Hlen & _ & _) Hdiv. unfold IntHeader.PushHop.
  destruct (IntHeader.mode g) eqn:Hm;
    try (exists h, []; split; [reflexivity|]; split; [auto|discriminate]).
  rewrite PushHop_index.
  destruct (Set_fields (IntHeader.multi g) (IntHeader.hop_at h (ring_slot h)) t b q r
              (Hdiv eq_refl)) as (x & Hset & _).
  rewrite Hset. cbn [mbind option_bind].
  eexists. eexists. split; [reflexivity|]. split; [intros H; contradiction|].
  intros _. unfold pushed. cbn [IntHeader.nhop IntHeader.hop].
  pose proof (ring_slot_lt h).
  repeat split.
  - rewrite Hset. do 2 f_equal. symmetry. apply hop_at_lookup.
    cbn [IntHeader.hop]. apply list_lookup_insert_eq. lia.
  - apply length_insert.
  - intros j Hj. apply hop_at_insert_ne. exact Hj.
Qed.

Lemma PushHop_ring_witness :
  let g := {| IntHeader.mode := IntHeader.NORMAL; IntHeader.pint_bytes := 2;
              IntHeader.multi := 1 |} in
  let h := {| IntHeader.hop := [0; 0; 0; 0; 0]; IntHeader.nhop := 65535 |} in
  exists h' out,
    IntHeader.PushHop g h 7 300 90 (25 * 10 ^ 9) = Some (h', out) /\
    pushed g h 7 300 90 (25 * 10 ^ 9) 0 h' out.
Proof.
  intros g h.
  destruct (PushHop_ring g h 7 300 90 (25 * 10 ^ 9))
    as (h' & out & Hpush & _ & Hnormal).
  - subst h. header_wf_closed.
  - intros _. split; vm_compute; discriminate.
  - exists h', out. split; [exact Hpush|]. apply Hnormal. reflexivity.
Defined.

(** C4, as stated, fails: from a counter of 65535 the next push leaves the
    counter at 0, not at 65536. *)
Lemma PushHop_spec_fails : ~ PushHop_spec.
Proof.
  intros H.
  destruct (H {| IntHeader.mode := IntHeader.NORMAL; IntHeader.pint_bytes := 2;
                 IntHeader.multi := 1 |}
              {| IntHeader.hop := [0; 0; 0; 0; 0]; IntHeader.nhop := 65535 |}
              0 0 0 (25 * 10 ^ 9)
              {| IntHeader.hop := [0; 0; 0; 0; 0]; IntHeader.nhop := 0 |} [])
    as [_ Hn].
  - header_wf_closed.
  - reflexivity.
  - destruct (Hn eq_refl) as (_ & Hcount & _). discriminate Hcount.
Qed.

(** [Set_] keeps a hop inside its 64-bit storage unit, and [PushHop] keeps a
    header well formed. *)
Lemma Set_wf multi x t b q r x' out :
  hop_wf x -> IntHop.Set_ multi x t b q r = Some (x', out) -> hop_wf x'.
Proof.
  unfold hop_wf, IntHop.Set_. intros Hx Hset.
  destruct (udiv b _) as [qb|]; [|discriminate]. cbn [mbind option_bind] in Hset.
  destruct (udiv q _) as [qq|]; [|discriminate]. cbn [mbind option_bind] in Hset.
  assert (forall v, 0 <= IntHop.set_qlen
            (IntHop.set_bytes (IntHop.set_time x t) qb) v < 2 ^ 64) as H3.
  { intros v. field_simpl. repeat apply bf_set_range; auto; lia. }
  destruct (IntHop.rate_case r); injection Hset as <- _.
  - field_simpl. apply bf_set_range; try lia. apply (H3 qq).
  - apply H3.
Qed.

Lemma PushHop_wf g h t b q r h' out :
  header_wf h -> IntHeader.PushHop g h t b q r = Some (h', out) -> header_wf h'.
Proof.
  intros (Hlen & Hhops & Hn) Hpush. unfold IntHeader.PushHop in Hpush.
  destruct (IntHeader.mode g);
    try (injection Hpush as <- _; repeat split; auto; apply Hn).
  destruct (IntHop.Set_ _ _ _ _ _ _) as [[x o]|] eqn:Hset; [|discriminate].
  cbn [mbind option_bind] in Hpush. injection Hpush as <- _.
  repeat split; cbn [IntHeader.hop IntHeader.nhop].
  - rewrite length_insert. exact Hlen.
  - apply Forall_insert; [exact Hhops|].
    eapply Set_wf; [|exact Hset]. apply hop_at_wf, Hhops.
  - apply Z.mod_pos_bound. lia.
  - apply Z.mod_pos_bound. lia.
Qed.

(** ** Dispatch *)

Lemma entry_selected_matches e dev proto promisc :
  Node.entry_selected e dev proto promisc = true <->
  entry_matches dev proto promisc e.
Proof.
  unfold Node.entry_selected, entry_matches.
  destruct (Node.device e) as [d|] eqn:Hd; simpl.
  - destruct (bool_decide_reflect (Some d = dev)) as [Hdev|Hdev];
      [|split; [discriminate|intros [[?|?] _]; congruence]].
    destruct (Z.eqb_spec (Node.protocol e) 0) as [Hp0|Hp0];
      destruct (Z.eqb_spec (Node.protocol e) proto) as [Hp|Hp]; simpl;
      destruct promisc, (Node.promiscuous e); simpl;
      split; try discriminate; try tauto; intros (_ & [?|?] & ?); congruence.
  - destruct (Z.eqb_spec (Node.protocol e) 0) as [Hp0|Hp0];
      destruct (Z.eqb_spec (Node.protocol e) proto) as [Hp|Hp]; simpl;
      destruct promisc, (Node.promiscuous e); simpl;
      split; try discriminate; try tauto; intros (_ & [?|?] & ?); congruence.
Qed.

Section Dispatch.

Variables (dev : option Node.DevId) (packet : Node.Packet) (proto : Z)
          (from to : Node.Address) (packetType : Node.PacketType) (promisc : bool).

Local Abbreviation step := (Node.receive_step dev packet proto from to packetType promisc).
Local Abbreviation call := (handler_call dev packet proto from to packetType).
Local Abbreviation matches := (entry_matches dev proto promisc).

Lemma receive_step_matches found w e :
  step (found, w) e =
  if decide (matches e) then (true, Node.invoke w (call e)) else (found, w).
Proof.
  unfold Node.receive_step.
  destruct (Node.entry_selected e dev proto promisc) eqn:Hsel.
  - apply entry_selected_matches in Hsel. rewrite decide_True by exact Hsel.
    reflexivity.
  - rewrite decide_False; [reflexivity|].
    intros H. apply entry_selected_matches in H. congruence.
Qed.

(** The loop of [ReceiveFromDevice] walks the table front to back, invokes
    the handler of each matching entry and remembers whether there was one. *)
Lemma receive_loop hs : forall found w,
  exists found',
    fold_left step hs (found, w) =
      (found',
       {| Node.this := Node.this w; Node.heap := Node.heap w;
          Node.sim_context := Node.sim_context w;
          Node.sim_events := Node.sim_events w;
          Node.calls := Node.calls w ++ map call (filter matches hs) |}) /\
    (found' = true <-> found = true \/ exists e, e ∈ hs /\ matches e).
Proof.
  induction hs as [|e hs IH]; intros found w.
  - exists found. cbn [fold_left filter list_filter map]. rewrite app_nil_r.
    destruct w; split; [reflexivity|].
    split; [auto|]. intros [H|(e & He & _)]; [exact H|]. inversion He.
  - cbn [fold_left]. rewrite receive_step_matches.
    destruct (decide (matches e)) as [Hsel|Hno].
    + destruct (IH true (Node.invoke w (call e))) as (found' & -> & Hfound).
      exists found'. rewrite filter_cons_True by exact Hsel.
      cbn [map Node.invoke Node.this Node.heap Node.sim_context Node.sim_events
           Node.calls]. rewrite <- app_assoc. split; [reflexivity|].
      split; [|intros _; apply Hfound; auto].
      intros _. right. exists e. split; [left|exact Hsel].
    + destruct (IH found w) as (found' & -> & Hfound).
      exists found'. rewrite filter_cons_False by exact Hno.
      split; [reflexivity|]. rewrite Hfound. split.
      * intros [H|(e' & He' & Hm)]; [auto|]. right. exists e'. split; [right|]; auto.
      * intros [H|(e' & He' & Hm)]; [auto|]. right. exists e'.
        apply elem_of_cons in He' as [->|He']; [contradiction|auto].
Qed.

(** C1.  [ReceiveFromDevice], run in the context of its node, invokes the
    handlers of exactly the matching entries, all of them, in table (that is
    registration) order, touches nothing else, and returns true if and only
    if some entry matched.  An entry matches when its device is unset or
    equal to the receiving device, its protocol is zero or equal to the
    protocol of the packet, and its promiscuous flag equals the one of the
    call. *)
Theorem ReceiveFromDevice_dispatch w :
  Node.sim_context w = Node.GetId w ->
  exists found w',
    Node.ReceiveFromDevice w dev packet proto from to packetType promisc
      = Some (found, w') /\
    Node.calls w' =
      Node.calls w ++ map call (filter matches (Node.m_handlers (Node.this w))) /\
    (found = true <-> exists e, e ∈ Node.m_handlers (Node.this w) /\ matches e) /\
    Node.this w' = Node.this w /\ Node.heap w' = Node.heap w /\
    Node.sim_events w' = Node.sim_events w.
Proof.
  intros Hctx. unfold Node.ReceiveFromDevice.
  rewrite Hctx, Z.eqb_refl.
  destruct (receive_loop (Node.m_handlers (Node.this w)) false w)
    as (found & Hloop & Hfound).
  rewrite Hloop. eexists. eexists. split; [reflexivity|].
  cbn [Node.calls Node.this Node.heap Node.sim_events].
  repeat split; auto.
  - intros H. apply Hfound in H as [H|H]; [discriminate|exact H].
  - intros H. apply Hfound. auto.
Qed.

End Dispatch.

Lemma ReceiveFromDevice_dispatch_witness :
  let h1 := {| Node.handler := 1%nat; Node.device := Some 7%nat;
               Node.protocol := 2048; Node.promiscuous := false |} in
  let h2 := {| Node.handler := 2%nat; Node.device := None;
               Node.protocol := 0; Node.promiscuous := false |} in
  let h3 := {| Node.handler := 3%nat; Node.device := None;
               Node.protocol := 0; Node.promiscuous := true |} in
  let w := {| Node.this := {| Node.m_id := 4; Node.m_sid := 0;
                              Node.m_devices := [7%nat; 8%nat];
                              Node.m_handlers := [h1; h2; h3];
                              Node.m_deviceAdditionListeners := [] |};
              Node.heap := ∅; Node.sim_context := 4;
              Node.sim_events := []; Node.calls := [] |} in
  exists found w',
    Node.ReceiveFromDevice w (Some 7%nat) 11%nat 2048 5%nat 6%nat 0%nat false
      = Some (found, w') /\
    Node.calls w' =
      [Node.HandlerCall 1%nat (Some 7%nat) 11%nat 2048 5%nat 6%nat 0%nat;
       Node.HandlerCall 2%nat (Some 7%nat) 11%nat 2048 5%nat 6%nat 0%nat] /\
    found = true.
Proof.
  intros h1 h2 h3 w.
  destruct (ReceiveFromDevice_dispatch (Some 7%nat) 11%nat 2048 5%nat 6%nat 0%nat
              false w eq_refl) as (found & w' & Hrun & Hcalls & Hfound & _).
  exists found, w'. split; [exact Hrun|]. split; [exact Hcalls|].
  apply Hfound. exists h2. split; [right; left|].
  repeat split; auto.
Defined.

(** [RegisterProtocolHandler] puts the new entry behind the ones registered
    before, so table order is registration order. *)
Lemma RegisterProtocolHandler_appends w hdl proto dev promisc :
  Node.m_handlers (Node.this (Node.RegisterProtocolHandler w hdl proto dev promisc))
  = Node.m_handlers (Node.this w)
    ++ [{| Node.handler := hdl; Node.device := dev; Node.protocol := proto;
           Node.promiscuous := promisc |}].
Proof.
  unfold Node.RegisterProtocolHandler. cbn [Node.with_node Node.this Node.m_handlers].
  f_equal. f_equal.
  destruct promisc; [|reflexivity]. destruct dev as [d|]; [reflexivity|].
  generalize (Node.m_devices (Node.this w)) as ds. intros ds. revert w.
  induction ds as [|d ds IH]; intros w; [reflexivity|].
  cbn [fold_left]. rewrite IH. reflexivity.
Qed.

(** ** Device-addition listeners *)

Lemma invoke_all {A} (f : A -> Node.Call) xs : forall w,
  fold_left (fun w x => Node.invoke w (f x)) xs w
  = {| Node.this := Node.this w; Node.heap := Node.heap w;
       Node.sim_context := Node.sim_context w;
       Node.sim_events := Node.sim_events w;
       Node.calls := Node.calls w ++ map f xs |}.
Proof.
  induction xs as [|x xs IH]; intros w; cbn [fold_left map].
  - rewrite app_nil_r. destruct w; reflexivity.
  - rewrite IH. cbn [Node.invoke Node.this Node.heap Node.sim_context
                     Node.sim_events Node.calls].
    rewrite <- app_assoc. reflexivity.
Qed.

(** What [AddDevice] does to the node and to the trace: the device goes to
    the end of the device list and every registered listener is invoked
    once, in registration order, for that device. *)
Lemma AddDevice_notifies w d :
  Node.m_devices (Node.this (Node.AddDevice w d).2) = Node.m_devices (Node.this w) ++ [d] /\
  Node.m_deviceAdditionListeners (Node.this (Node.AddDevice w d).2)
    = Node.m_deviceAdditionListeners (Node.this w) /\
  Node.calls (Node.AddDevice w d).2
    = Node.calls w
      ++ map (fun l => Node.ListenerCall l d)
             (Node.m_deviceAdditionListeners (Node.this w)).
Proof.
  unfold Node.AddDevice, Node.NotifyDeviceAdded. cbn [snd].
  rewrite invoke_all. repeat split.
Qed.

(** C8.  [RegisterDeviceAdditionListener] appends the listener and invokes
    it once for each attached device, in attachment order; a device added
    afterwards makes every registered listener, the new one last, be invoked
    exactly once more, for that device. *)
Theorem RegisterDeviceAdditionListener_replay w l :
  let w1 := Node.RegisterDeviceAdditionListener w l in
  Node.m_deviceAdditionListeners (Node.this w1)
    = Node.m_deviceAdditionListeners (Node.this w) ++ [l] /\
  Node.m_devices (Node.this w1) = Node.m_devices (Node.this w) /\
  Node.calls w1 = Node.calls w ++ map (Node.ListenerCall l) (Node.m_devices (Node.this w)) /\
  forall d,
    let w2 := (Node.AddDevice w1 d).2 in
    Node.m_devices (Node.this w2) = Node.m_devices (Node.this w) ++ [d] /\
    Node.calls w2
      = Node.calls w1
        ++ map (fun l' => Node.ListenerCall l' d)
               (Node.m_deviceAdditionListeners (Node.this w) ++ [l]).
Proof.
  intros w1.
  assert (w1 = {| Node.this :=
                    {| Node.m_id := Node.m_id (Node.this w);
                       Node.m_sid := Node.m_sid (Node.this w);
                       Node.m_devices := Node.m_devices (Node.this w);
                       Node.m_handlers := Node.m_handlers (Node.this w);
                       Node.m_deviceAdditionListeners :=
                         Node.m_deviceAdditionListeners (Node.this w) ++ [l] |};
                  Node.heap := Node.heap w;
                  Node.sim_context := Node.sim_context w;
                  Node.sim_events := Node.sim_events w;
                  Node.calls := Node.calls w
                    ++ map (Node.ListenerCall l) (Node.m_devices (Node.this w)) |})
    as Hw1.
  { subst w1. unfold Node.RegisterDeviceAdditionListener.
    rewrite invoke_all. reflexivity. }
  repeat split; try (rewrite Hw1; reflexivity).
  - destruct (AddDevice_notifies w1 d) as (-> & _). rewrite Hw1. reflexivity.
  - destruct (AddDevice_notifies w1 d) as (_ & _ & ->). rewrite Hw1. reflexivity.
Qed.

(** ** Promiscuous callbacks *)

Lemma promisc_armed_idem w d : promisc_armed w (promisc_armed w d) = promisc_armed w d.
Proof. reflexivity. Qed.

(** The loop of [RegisterProtocolHandler] over the attached devices. *)
Lemma arm_all ds : forall w,
  let w' :=
    fold_left
      (fun w d =>
         Node.with_heap w
           (alter (Node.SetPromiscReceiveCallback (Node.PromiscReceive (Node.GetId w)))
                  d (Node.heap w)))
      ds w in
  Node.this w' = Node.this w /\ Node.calls w' = Node.calls w /\
  Node.sim_events w' = Node.sim_events w /\
  forall d, Node.heap w' !! d =
            if decide (d ∈ ds) then promisc_armed w <$> Node.heap w !! d
            else Node.heap w !! d.
Proof.
  induction ds as [|d0 ds IH]; intros w; cbn [fold_left].
  - repeat split.
  - set (w0 := Node.with_heap w _).
    destruct (IH w0) as (Hthis & Hcalls & Hev & Hheap).
    cbv zeta. rewrite Hthis, Hcalls, Hev. repeat split.
    intros d. rewrite Hheap.
    assert (promisc_armed w0 = promisc_armed w) as -> by reflexivity.
    subst w0. cbn [Node.with_heap Node.heap].
    fold (promisc_armed w).
    destruct (decide (d = d0)) as [->|Hne].
    + rewrite lookup_alter_eq.
      rewrite (decide_True (P := d0 ∈ d0 :: ds)) by left.
      destruct (decide (d0 ∈ ds)); [|reflexivity].
      destruct (Node.heap w !! d0); reflexivity.
    + rewrite lookup_alter_ne by auto.
      destruct (decide (d ∈ ds)) as [Hin|Hnin].
      * rewrite decide_True by (right; exact Hin). reflexivity.
      * rewrite decide_False; [reflexivity|].
        intros H. apply elem_of_cons in H as [?|?]; contradiction.
Qed.

(** What [AddDevice] does to the device objects: it touches the added
    device only, and there it sets the node, the index and the
    non-promiscuous receive callback. *)
Lemma AddDevice_heap w d d' :
  Node.heap (Node.AddDevice w d).2 !! d' =
  if decide (d' = d)
  then (fun x =>
          Node.SetReceiveCallback (Node.NonPromiscReceive (Node.GetId w))
            (Node.SetIfIndex (wrap32 (Z.of_nat (length (Node.m_devices (Node.this w)))))
               (Node.SetNode (Node.GetId w) x))) <$> Node.heap w !! d'
  else Node.heap w !! d'.
Proof.
  unfold Node.AddDevice, Node.NotifyDeviceAdded. cbn [snd].
  rewrite invoke_all. cbn [Node.heap Node.with_heap Node.schedule Node.with_node].
  destruct (decide (d' = d)) as [->|Hne].
  - rewrite !lookup_alter_eq. destruct (Node.heap w !! d); reflexivity.
  - rewrite !lookup_alter_ne by auto. reflexivity.
Qed.

(** C9.  Registering a promiscuous handler with no device installs the
    promiscuous callback on exactly the devices attached at that moment.
    [AddDevice] of a further device afterwards installs the non-promiscuous
    callback on it, leaves its promiscuous callback as it was, and modifies
    no other device. *)
Theorem promiscuous_snapshot w hdl proto d dv :
  d ∉ Node.m_devices (Node.this w) ->
  Node.heap w !! d = Some dv ->
  let w1 := Node.RegisterProtocolHandler w hdl proto None true in
  let w2 := (Node.AddDevice w1 d).2 in
  (forall d', Node.heap w1 !! d' =
              if decide (d' ∈ Node.m_devices (Node.this w))
              then promisc_armed w <$> Node.heap w !! d'
              else Node.heap w !! d') /\
  (exists dv',
     Node.heap w2 !! d = Some dv' /\
     Node.dev_promiscCallback dv' = Node.dev_promiscCallback dv /\
     Node.dev_receiveCallback dv' = Some (Node.NonPromiscReceive (Node.GetId w))) /\
  (forall d', d' <> d -> Node.heap w2 !! d' = Node.heap w1 !! d').
Proof.
  intros Hnew Hdv w1 w2.
  destruct (arm_all (Node.m_devices (Node.this w)) w) as (Hthis & _ & _ & Hheap).
  assert (forall d', Node.heap w1 !! d' =
              if decide (d' ∈ Node.m_devices (Node.this w))
              then promisc_armed w <$> Node.heap w !! d'
              else Node.heap w !! d') as Hw1.
  { intros d'. rewrite <- Hheap. reflexivity. }
  assert (Node.GetId w1 = Node.GetId w) as Hid.
  { subst w1. unfold Node.RegisterProtocolHandler, Node.GetId.
    cbn [Node.with_node Node.this Node.m_id]. f_equal. exact Hthis. }
  split; [exact Hw1|]. split.
  - subst w2. rewrite AddDevice_heap, decide_True by reflexivity.
    rewrite Hw1, decide_False, Hdv by exact Hnew.
    eexists. split; [reflexivity|]. rewrite Hid. split; reflexivity.
  - intros d' Hne. subst w2. rewrite AddDevice_heap, decide_False by exact Hne.
    reflexivity.
Qed.

Lemma promiscuous_snapshot_witness :
  let fresh := {| Node.dev_node := None; Node.dev_ifIndex := 0;
                  Node.dev_address := 0%nat;
                  Node.dev_receiveCallback := None;
                  Node.dev_promiscCallback := None |} in
  let w := {| Node.this := {| Node.m_id := 4; Node.m_sid := 0;
                              Node.m_devices := [7%nat];
                              Node.m_handlers := [];
                              Node.m_deviceAdditionListeners := [] |};
              Node.heap := {[ 7%nat := Node.SetReceiveCallback (Node.NonPromiscReceive 4) fresh;
                              8%nat := fresh ]};
              Node.sim_context := 4; Node.sim_events := []; Node.calls := [] |} in
  let w1 := Node.RegisterProtocolHandler w 1%nat 0 None true in
  let w2 := (Node.AddDevice w1 8%nat).2 in
  (Node.dev_promiscCallback <$> Node.heap w1 !! 7%nat) = Some (Some (Node.PromiscReceive 4)) /\
  (exists dv',
     Node.heap w2 !! 8%nat = Some dv' /\
     Node.dev_promiscCallback dv' = None /\
     Node.dev_receiveCallback dv' = Some (Node.NonPromiscReceive 4)) /\
  Node.heap w2 !! 7%nat = Node.heap w1 !! 7%nat.
Proof.
  intros fresh w w1 w2.
  destruct (promiscuous_snapshot w 1%nat 0 8%nat fresh) as (Harm & Hnew & Hframe).
  - apply (bool_decide_unpack _). vm_compute. exact I.
  - vm_compute. reflexivity.
  - split; [|split].
    + unfold w1. rewrite (Harm 7%nat). vm_compute. reflexivity.
    + exact Hnew.
    + apply Hframe. discriminate.
Defined.

(** ** PropagationCache *)

Lemma less_lex x y :
  PropagationCache.less x y = true <->
  let '(u, lo, hi) := path_key x in
  let '(u', lo', hi') := path_key y in
  u < u' \/ (u = u' /\ (lo < lo' \/ (lo = lo' /\ hi < hi'))).
Proof.
  unfold PropagationCache.less, path_key.
  repeat match goal with
  | |- context [negb (?a =? ?b)] => destruct (Z.eqb_spec a b); cbn [negb]
  | |- context [?a <? ?b] => destruct (Z.ltb_spec a b)
  end; split; try discriminate; try reflexivity; lia.
Qed.

Lemma less_false_lex x y :
  PropagationCache.less x y = false <-> ~ (PropagationCache.less x y = true).
Proof. destruct (PropagationCache.less x y); split; congruence. Qed.

Lemma equivalent_path_key x y : equivalent x y <-> path_key x = path_key y.
Proof.
  unfold equivalent. rewrite !less_false_lex, !less_lex.
  destruct (path_key x) as [[u lo] hi], (path_key y) as [[u' lo'] hi'].
  split.
  - intros [H1 H2]. f_equal; [f_equal|]; lia.
  - intros H. injection H as -> -> ->. lia.
Qed.

Lemma path_key_same_path x y : path_key x = path_key y <-> same_path x y.
Proof.
  unfold path_key, same_path, PropagationCache.ptr_min, PropagationCache.ptr_max.
  destruct x as [s d u], y as [s' d' u']. cbn.
  destruct (Z.ltb_spec s d), (Z.ltb_spec d s), (Z.ltb_spec s' d'), (Z.ltb_spec d' s');
    (split;
     [intros Hk; injection Hk as ? ? ?; lia
     |intros (-> & [[-> ->]|[-> ->]]); f_equal; try f_equal; lia]).
Qed.

Lemma less_trans x y z :
  PropagationCache.less x y = true -> PropagationCache.less y z = true ->
  PropagationCache.less x z = true.
Proof.
  rewrite !less_lex.
  destruct (path_key x) as [[u lo] hi], (path_key y) as [[u' lo'] hi'],
           (path_key z) as [[u'' lo''] hi'']. lia.
Qed.

Lemma less_irrefl x : PropagationCache.less x x = false.
Proof.
  apply less_false_lex. rewrite less_lex.
  destruct (path_key x) as [[u lo] hi]. lia.
Qed.

Lemma less_equivalent_l x y z :
  equivalent x y -> PropagationCache.less x z = PropagationCache.less y z.
Proof.
  intros H. apply equivalent_path_key in H.
  destruct (PropagationCache.less x z) eqn:E1, (PropagationCache.less y z) eqn:E2;
    try reflexivity; exfalso.
  - apply less_false_lex in E2. apply E2. rewrite less_lex in *. rewrite <- H. exact E1.
  - apply less_false_lex in E1. apply E1. rewrite less_lex in *. rewrite H. exact E2.
Qed.

Lemma less_equivalent_r x y z :
  equivalent x y -> PropagationCache.less z x = PropagationCache.less z y.
Proof.
  intros H. apply equivalent_path_key in H.
  destruct (PropagationCache.less z x) eqn:E1, (PropagationCache.less z y) eqn:E2;
    try reflexivity; exfalso.
  - apply less_false_lex in E2. apply E2. rewrite less_lex in *. rewrite <- H. exact E1.
  - apply less_false_lex in E1. apply E1. rewrite less_lex in *. rewrite H. exact E2.
Qed.

(** [operator<] is a strict weak ordering, as [std::map] needs, and two keys
    are equivalent under it exactly when they have the same uid and the same
    two endpoints in either order. *)
Theorem less_strict_weak_order :
  (forall x, PropagationCache.less x x = false) /\
  (forall x y z, PropagationCache.less x y = true -> PropagationCache.less y z = true ->
                 PropagationCache.less x z = true) /\
  (forall x y z, equivalent x y -> equivalent y z -> equivalent x z) /\
  (forall x y, equivalent x y <-> same_path x y).
Proof.
  split; [exact less_irrefl|]. split; [exact less_trans|]. split.
  - intros x y z Hxy Hyz. apply equivalent_path_key.
    apply equivalent_path_key in Hxy, Hyz. congruence.
  - intros x y. rewrite equivalent_path_key. apply path_key_same_path.
Qed.

Lemma map_find_insert_eq key key' data m :
  equivalent key' key ->
  PropagationCache.map_find key m = None ->
  PropagationCache.map_find key' (PropagationCache.map_insert key data m) = Some data.
Proof.
  intros Heq. pose proof Heq as [H1 H2].
  induction m as [|[k v] m IH]; cbn [PropagationCache.map_find PropagationCache.map_insert].
  - intros _. rewrite H2, H1. reflexivity.
  - destruct (PropagationCache.less k key) eqn:Hk.
    + intros Hfind. cbn [PropagationCache.map_find].
      rewrite (less_equivalent_r _ _ k Heq), Hk. apply IH, Hfind.
    + destruct (PropagationCache.less key k) eqn:Hk'; [|discriminate].
      intros _. cbn [PropagationCache.map_find]. rewrite H2, H1. reflexivity.
Qed.

Lemma map_find_insert_ne key key' data m :
  ~ equivalent key' key ->
  PropagationCache.map_find key' (PropagationCache.map_insert key data m)
  = PropagationCache.map_find key' m.
Proof.
  intros Hne.
  induction m as [|[k v] m IH]; cbn [PropagationCache.map_find PropagationCache.map_insert].
  - destruct (PropagationCache.less key key') eqn:H1; [reflexivity|].
    destruct (PropagationCache.less key' key) eqn:H2; [reflexivity|].
    exfalso. apply Hne. split; assumption.
  - destruct (PropagationCache.less k key) eqn:Hk.
    + cbn [PropagationCache.map_find]. rewrite IH. reflexivity.
    + destruct (PropagationCache.less key k) eqn:Hk'; [|reflexivity].
      cbn [PropagationCache.map_find].
      destruct (PropagationCache.less key key') eqn:H1; [reflexivity|].
      destruct (PropagationCache.less key' key) eqn:H2;
        [|exfalso; apply Hne; split; assumption].
      destruct (PropagationCache.less k key') eqn:H3.
      * rewrite (less_trans _ _ _ Hk' H3) in H1. discriminate.
      * rewrite (less_trans _ _ _ H2 Hk'). reflexivity.
Qed.

(** A model added for the pair [(a, b)] is what [GetPathData] returns for
    [(a, b)] and for [(b, a)]. *)
Theorem AddPathData_GetPathData m data a b uid m' :
  PropagationCache.AddPathData m data a b uid = Some m' ->
  PropagationCache.GetPathData m' a b uid = data /\
  PropagationCache.GetPathData m' b a uid = data.
Proof.
  unfold PropagationCache.AddPathData, PropagationCache.GetPathData.
  destruct (PropagationCache.map_find _ m) eqn:Hfind; [discriminate|].
  intros H. injection H as <-. split.
  - rewrite map_find_insert_eq; [reflexivity| |exact Hfind].
    apply equivalent_path_key. reflexivity.
  - rewrite map_find_insert_eq; [reflexivity| |exact Hfind].
    apply equivalent_path_key, path_key_same_path.
    split; [reflexivity|]. right. split; reflexivity.
Qed.

Lemma AddPathData_GetPathData_witness :
  exists m',
    PropagationCache.AddPathData [] (Some 1%nat) 20 10 3 = Some m' /\
    PropagationCache.GetPathData m' 20 10 3 = Some 1%nat /\
    PropagationCache.GetPathData m' 10 20 3 = Some 1%nat.
Proof.
  eexists. split; [reflexivity|].
  apply (AddPathData_GetPathData [] (Some 1%nat) 20 10 3). reflexivity.
Defined.

(** Adding a model for one path changes the answer of [GetPathData] for no
    other path. *)
Theorem AddPathData_other_paths m data a b uid m' a' b' uid' :
  PropagationCache.AddPathData m data a b uid = Some m' ->
  ~ same_path (PropagationCache.mkPathId a' b' uid') (PropagationCache.mkPathId a b uid) ->
  PropagationCache.GetPathData m' a' b' uid' = PropagationCache.GetPathData m a' b' uid'.
Proof.
  unfold PropagationCache.AddPathData, PropagationCache.GetPathData.
  destruct (PropagationCache.map_find _ m) eqn:Hfind; [discriminate|].
  intros H Hne. injection H as <-.
  rewrite map_find_insert_ne; [reflexivity|].
  intros Heq. apply Hne. apply path_key_same_path, equivalent_path_key, Heq.
Qed.

Lemma AddPathData_other_paths_witness :
  exists m1 m2,
    PropagationCache.AddPathData [] (Some 1%nat) 20 10 3 = Some m1 /\
    PropagationCache.AddPathData m1 (Some 2%nat) 10 20 4 = Some m2 /\
    PropagationCache.GetPathData m2 20 10 3 = PropagationCache.GetPathData m1 20 10 3.
Proof.
  eexists. eexists. split; [reflexivity|]. split; [reflexivity|].
  apply (AddPathData_other_paths _ (Some 2%nat) 10 20 4); [reflexivity|].
  intros [H _]. discriminate H.
Defined.

(** Once a model is stored for a pair, adding one for the same pair, in
    either order of the endpoints, fails the assertion of [AddPathData]. *)
Theorem AddPathData_twice m data a b uid m' data' :
  PropagationCache.AddPathData m data a b uid = Some m' ->
  PropagationCache.AddPathData m' data' a b uid = None /\
  PropagationCache.AddPathData m' data' b a uid = None.
Proof.
  unfold PropagationCache.AddPathData.
  destruct (PropagationCache.map_find _ m) eqn:Hfind; [discriminate|].
  intros H. injection H as <-. split.
  - rewrite map_find_insert_eq; [reflexivity| |exact Hfind].
    apply equivalent_path_key. reflexivity.
  - rewrite map_find_insert_eq; [reflexivity| |exact Hfind].
    apply equivalent_path_key, path_key_same_path.
    split; [reflexivity|]. right. split; reflexivity.
Qed.

Lemma AddPathData_twice_witness :
  exists m',
    PropagationCache.AddPathData [] (Some 1%nat) 20 10 3 = Some m' /\
    PropagationCache.AddPathData m' (Some 2%nat) 20 10 3 = None /\
    PropagationCache.AddPathData m' (Some 2%nat) 10 20 3 = None.
Proof.
  eexists. split; [reflexivity|].
  apply (AddPathData_twice [] (Some 1%nat) 20 10 3). reflexivity.
Defined.

(** [find] only ever returns the value of an entry with an equivalent key. *)
Lemma map_find_Some key m v :
  PropagationCache.map_find key m = Some v ->
  exists k, (k, v) ∈ m /\ equivalent k key.
Proof.
  induction m as [|[k x] m IH]; cbn [PropagationCache.map_find]; [discriminate|].
  destruct (PropagationCache.less k key) eqn:H1.
  - intros H. destruct (IH H) as (k' & Hin & Heq). exists k'. split; [right|]; auto.
  - destruct (PropagationCache.less key k) eqn:H2; [discriminate|].
    intros H. injection H as <-. exists k. split; [left|split; assumption].
Qed.

(** Where no stored path has the uid and the two endpoints asked for,
    [GetPathData] returns the null pointer; so it does on the empty cache. *)
Theorem GetPathData_miss m a b uid :
  (forall k v, (k, v) ∈ m -> ~ same_path k (PropagationCache.mkPathId a b uid)) ->
  PropagationCache.GetPathData m a b uid = None.
Proof.
  intros Hno. unfold PropagationCache.GetPathData.
  destruct (PropagationCache.map_find _ m) as [v|] eqn:Hfind; [|reflexivity].
  destruct (map_find_Some _ _ _ Hfind) as (k & Hin & Heq).
  exfalso. apply (Hno k v Hin). apply path_key_same_path, equivalent_path_key, Heq.
Qed.

Lemma GetPathData_miss_witness :
  PropagationCache.GetPathData [(PropagationCache.mkPathId 10 20 3, Some 1%nat)] 10 30 3
  = None.
Proof.
  apply GetPathData_miss. intros k v Hin.
  apply list_elem_of_singleton in Hin. injection Hin as -> ->.
  intros [_ [[_ H]|[H _]]]; discriminate H.
Defined.

(** ** The cache stays in key order *)

Lemma map_insert_Forall (P : PropagationCache.PropagationPathIdentifier * option nat -> Prop)
    key data m :
  P (key, data) -> Forall P m -> Forall P (PropagationCache.map_insert key data m).
Proof.
  intros Hk. induction m as [|[k v] m IH]; intros Hm; cbn [PropagationCache.map_insert].
  - repeat constructor. exact Hk.
  - apply Forall_cons in Hm as [Hkv Hm].
    destruct (PropagationCache.less k key).
    + constructor; auto.
    + destruct (PropagationCache.less key k); repeat constructor; auto.
Qed.

Lemma map_insert_sorted key data m :
  StronglySorted key_less m ->
  StronglySorted key_less (PropagationCache.map_insert key data m).
Proof.
  induction m as [|[k v] m IH]; intros Hs; cbn [PropagationCache.map_insert].
  - repeat constructor.
  - apply StronglySorted_inv in Hs as [Hs Hall].
    destruct (PropagationCache.less k key) eqn:H1.
    + constructor; [apply IH, Hs|]. apply map_insert_Forall; assumption.
    + destruct (PropagationCache.less key k) eqn:H2.
      * constructor; [constructor; assumption|].
        constructor; [exact H2|].
        eapply Forall_impl; [exact Hall|]. intros [k' v'] Hk'. unfold key_less in *. cbn in *.
        eapply less_trans; eassumption.
      * constructor; assumption.
Qed.

Lemma built_sorted m : built m -> StronglySorted key_less m.
Proof.
  induction 1 as [|m data a b uid m' _ IH Hadd]; [constructor|].
  unfold PropagationCache.AddPathData in Hadd.
  destruct (PropagationCache.map_find _ m); [discriminate|].
  injection Hadd as <-. apply map_insert_sorted, IH.
Qed.

Lemma sorted_find key m k v :
  StronglySorted key_less m -> (k, v) ∈ m -> equivalent key k ->
  PropagationCache.map_find key m = Some v.
Proof.
  intros Hs Hin Heq. induction Hs as [|[k0 v0] m Hs IH Hall];
    [inversion Hin|]. cbn [PropagationCache.map_find].
  apply elem_of_cons in Hin as [Hhd|Htl].
  - injection Hhd as <- <-. destruct Heq as [H1 H2]. rewrite H2, H1. reflexivity.
  - rewrite Forall_forall in Hall. specialize (Hall _ Htl). unfold key_less in Hall. cbn in Hall.
    rewrite (less_equivalent_r _ _ k0 Heq), Hall. apply IH, Htl.
Qed.

(** In a cache built by [AddPathData] the entries are in strictly increasing
    key order, so no two of them are for the same path, and every stored
    model is returned by [GetPathData] for its two endpoints in either
    order. *)
Theorem built_cache_lookup m :
  built m ->
  StronglySorted key_less m /\
  (forall i j p q, m !! i = Some p -> m !! j = Some q -> same_path p.1 q.1 -> i = j) /\
  (forall k v, (k, v) ∈ m ->
     PropagationCache.GetPathData m (PropagationCache.m_srcMobility k)
       (PropagationCache.m_dstMobility k) (PropagationCache.m_spectrumModelUid k) = v /\
     PropagationCache.GetPathData m (PropagationCache.m_dstMobility k)
       (PropagationCache.m_srcMobility k) (PropagationCache.m_spectrumModelUid k) = v).
Proof.
  intros Hb. pose proof (built_sorted m Hb) as Hs. split; [exact Hs|]. split.
  - assert (forall i j p q, (i < j)%nat -> m !! i = Some p -> m !! j = Some q ->
                            ~ same_path p.1 q.1) as Hlt.
    { clear Hb. induction Hs as [|p0 m Hs IH Hall]; intros i j p q Hij Hi Hj.
      - destruct i; discriminate Hi.
      - destruct j as [|j]; [lia|]. cbn in Hj. destruct i as [|i]; cbn in Hi.
        + injection Hi as <-. rewrite Forall_forall in Hall.
          assert (q ∈ m) as Hq by (eapply list_elem_of_lookup_2; eauto).
          specialize (Hall _ Hq). unfold key_less in Hall. intros Hsame.
          apply path_key_same_path, equivalent_path_key in Hsame.
          destruct Hsame as [H1 _]. congruence.
        + apply (IH i j); auto. lia. }
    intros i j p q Hi Hj Hsame.
    destruct (Nat.lt_trichotomy i j) as [Hij|[Hij|Hij]]; [|exact Hij|].
    + exfalso. exact (Hlt _ _ _ _ Hij Hi Hj Hsame).
    + exfalso. apply (Hlt _ _ _ _ Hij Hj Hi).
      destruct Hsame as (Hu & [[? ?]|[? ?]]); split; auto.
  - intros k v Hin. unfold PropagationCache.GetPathData. split.
    + rewrite (sorted_find _ m k v Hs Hin); [reflexivity|].
      apply equivalent_path_key. destruct k; reflexivity.
    + rewrite (sorted_find _ m k v Hs Hin); [reflexivity|].
      apply equivalent_path_key, path_key_same_path. destruct k.
      split; [reflexivity|]. right. split; reflexivity.
Qed.

Lemma built_cache_lookup_witness :
  let m := [(PropagationCache.mkPathId 20 10 3, Some 1%nat);
            (PropagationCache.mkPathId 10 20 4, Some 2%nat)] in
  PropagationCache.GetPathData m 10 20 4 = Some 2%nat /\
  PropagationCache.GetPathData m 20 10 4 = Some 2%nat.
Proof.
  intros m.
  destruct (built_cache_lookup m) as (_ & _ & Hget).
  - apply (built_add [(PropagationCache.mkPathId 20 10 3, Some 1%nat)]
             (Some 2%nat) 10 20 4); [|reflexivity].
    apply (built_add [] (Some 1%nat) 20 10 3); [constructor|reflexivity].
  - apply (Hget (PropagationCache.mkPathId 10 20 4) (Some 2%nat)).
    right. left.
Defined.



(** ** Registration, dispatch and unregistration together *)

Lemma arm_all_frame ds : forall w,
  let w' :=
    fold_left
      (fun w d =>
         Node.with_heap w
           (alter (Node.SetPromiscReceiveCallback (Node.PromiscReceive (Node.GetId w)))
                  d (Node.heap w)))
      ds w in
  Node.this w' = Node.this w /\ Node.sim_context w' = Node.sim_context w /\
  Node.calls w' = Node.calls w /\ Node.sim_events w' = Node.sim_events w.
Proof.
  induction ds as [|d ds IH]; intros w; cbn [fold_left]; [repeat split|].
  destruct (IH (Node.with_heap w
                  (alter (Node.SetPromiscReceiveCallback
                            (Node.PromiscReceive (Node.GetId w))) d (Node.heap w))))
    as (H1 & H2 & H3 & H4).
  cbv zeta. rewrite H1, H2, H3, H4. repeat split.
Qed.

(** What [RegisterProtocolHandler] leaves alone, and the new table. *)
Lemma RegisterProtocolHandler_frame w hdl proto dev promisc :
  let w1 := Node.RegisterProtocolHandler w hdl proto dev promisc in
  Node.this w1 =
    {| Node.m_id := Node.m_id (Node.this w); Node.m_sid := Node.m_sid (Node.this w);
       Node.m_devices := Node.m_devices (Node.this w);
       Node.m_handlers := Node.m_handlers (Node.this w)
         ++ [{| Node.handler := hdl; Node.device := dev; Node.protocol := proto;
                Node.promiscuous := promisc |}];
       Node.m_deviceAdditionListeners := Node.m_deviceAdditionListeners (Node.this w) |} /\
  Node.sim_context w1 = Node.sim_context w /\
  Node.calls w1 = Node.calls w /\ Node.sim_events w1 = Node.sim_events w.
Proof.
  unfold Node.RegisterProtocolHandler.
  destruct promisc; [|repeat split].
  destruct dev as [d|]; [repeat split|].
  destruct (arm_all_frame (Node.m_devices (Node.this w)) w) as (H1 & H2 & H3 & H4).
  cbv zeta in *.
  cbn [Node.with_node Node.this Node.sim_context Node.calls Node.sim_events].
  rewrite H1, H2, H3, H4. repeat split.
Qed.

(** A handler that was just registered is invoked by the next reception it
    matches, after the matching handlers registered before it, and the
    reception reports a handler found. *)
Theorem RegisterProtocolHandler_then_receive w hdl proto dev promisc
    rdev packet rproto from to packetType :
  Node.sim_context w = Node.GetId w ->
  dev = None \/ dev = rdev ->
  proto = 0 \/ proto = rproto ->
  let w1 := Node.RegisterProtocolHandler w hdl proto dev promisc in
  exists w2,
    Node.ReceiveFromDevice w1 rdev packet rproto from to packetType promisc
      = Some (true, w2) /\
    Node.calls w2 =
      Node.calls w
      ++ map (handler_call rdev packet rproto from to packetType)
             (filter (entry_matches rdev rproto promisc) (Node.m_handlers (Node.this w)))
      ++ [Node.HandlerCall hdl rdev packet rproto from to packetType].
Proof.
  intros Hctx Hdev Hproto w1.
  destruct (RegisterProtocolHandler_frame w hdl proto dev promisc)
    as (Hthis & Hc & Hcalls & _). fold w1 in Hthis, Hc, Hcalls.
  set (e := {| Node.handler := hdl; Node.device := dev; Node.protocol := proto;
               Node.promiscuous := promisc |}) in *.
  assert (entry_matches rdev rproto promisc e) as He by (repeat split; assumption).
  unfold Node.ReceiveFromDevice, Node.GetId.
  rewrite Hc, Hthis. cbn [Node.m_id Node.m_handlers].
  unfold Node.GetId in Hctx. rewrite Hctx, Z.eqb_refl.
  destruct (receive_loop rdev packet rproto from to packetType promisc
              (Node.m_handlers (Node.this w) ++ [e]) false w1)
    as (found & Hloop & Hfound).
  rewrite Hloop.
  assert (found = true) as ->.
  { apply Hfound. right. exists e. split; [|exact He].
    apply elem_of_app. right. left. }
  eexists. split; [reflexivity|]. cbn [Node.calls].
  rewrite Hcalls, filter_app, map_app, filter_cons_True by exact He.
  reflexivity.
Qed.

Lemma RegisterProtocolHandler_then_receive_witness :
  let w := {| Node.this := {| Node.m_id := 4; Node.m_sid := 0;
                              Node.m_devices := [7%nat];
                              Node.m_handlers :=
                                [{| Node.handler := 1%nat; Node.device := None;
                                    Node.protocol := 0; Node.promiscuous := false |}];
                              Node.m_deviceAdditionListeners := [] |};
              Node.heap := ∅; Node.sim_context := 4;
              Node.sim_events := []; Node.calls := [] |} in
  let w1 := Node.RegisterProtocolHandler w 2%nat 2048 (Some 7%nat) false in
  exists w2,
    Node.ReceiveFromDevice w1 (Some 7%nat) 11%nat 2048 5%nat 6%nat 0%nat false
      = Some (true, w2) /\
    Node.calls w2 =
      [Node.HandlerCall 1%nat (Some 7%nat) 11%nat 2048 5%nat 6%nat 0%nat;
       Node.HandlerCall 2%nat (Some 7%nat) 11%nat 2048 5%nat 6%nat 0%nat].
Proof.
  intros w w1.
  apply (RegisterProtocolHandler_then_receive w 2%nat 2048 (Some 7%nat) false
           (Some 7%nat) 11%nat 2048 5%nat 6%nat 0%nat eq_refl);
    right; reflexivity.
Defined.

(** The two public receive entry points never cross: the non-promiscuous one
    invokes only entries registered with [promiscuous = false], passing the
    address of the device as destination and packet type 0, and the
    promiscuous one invokes only entries registered with
    [promiscuous = true]. *)
Theorem receive_paths_isolated w dev d packet proto from to packetType :
  Node.sim_context w = Node.GetId w ->
  Node.heap w !! dev = Some d ->
  (exists found w' es,
     Node.NonPromiscReceiveFromDevice w dev packet proto from = Some (found, w') /\
     Node.calls w' =
       Node.calls w
       ++ map (handler_call (Some dev) packet proto from (Node.dev_address d) 0%nat) es /\
     es = filter (entry_matches (Some dev) proto false) (Node.m_handlers (Node.this w)) /\
     Forall (fun e => Node.promiscuous e = false) es) /\
  (exists found w' es,
     Node.PromiscReceiveFromDevice w (Some dev) packet proto from to packetType
       = Some (found, w') /\
     Node.calls w' =
       Node.calls w ++ map (handler_call (Some dev) packet proto from to packetType) es /\
     es = filter (entry_matches (Some dev) proto true) (Node.m_handlers (Node.this w)) /\
     Forall (fun e => Node.promiscuous e = true) es).
Proof.
  intros Hctx Hd.
  unfold Node.NonPromiscReceiveFromDevice, Node.PromiscReceiveFromDevice,
    Node.ReceiveFromDevice.
  rewrite Hd, Hctx, Z.eqb_refl. cbn [mbind option_bind]. split.
  - destruct (receive_loop (Some dev) packet proto from (Node.dev_address d) 0%nat false
                (Node.m_handlers (Node.this w)) false w) as (found & -> & _).
    eexists. eexists. eexists. split; [reflexivity|]. split; [reflexivity|].
    split; [reflexivity|].
    apply Forall_forall. intros e He. apply list_elem_of_filter in He as [[_ [_ H]] _].
    exact H.
  - destruct (receive_loop (Some dev) packet proto from to packetType true
                (Node.m_handlers (Node.this w)) false w) as (found & -> & _).
    eexists. eexists. eexists. split; [reflexivity|]. split; [reflexivity|].
    split; [reflexivity|].
    apply Forall_forall. intros e He. apply list_elem_of_filter in He as [[_ [_ H]] _].
    exact H.
Qed.

Lemma receive_paths_isolated_witness :
  let hn := {| Node.handler := 1%nat; Node.device := None;
               Node.protocol := 0; Node.promiscuous := false |} in
  let hp := {| Node.handler := 2%nat; Node.device := None;
               Node.protocol := 0; Node.promiscuous := true |} in
  let d := {| Node.dev_node := Some 4; Node.dev_ifIndex := 0;
              Node.dev_address := 9%nat;
              Node.dev_receiveCallback := None; Node.dev_promiscCallback := None |} in
  let w := {| Node.this := {| Node.m_id := 4; Node.m_sid := 0;
                              Node.m_devices := [7%nat];
                              Node.m_handlers := [hn; hp];
                              Node.m_deviceAdditionListeners := [] |};
              Node.heap := {[ 7%nat := d ]}; Node.sim_context := 4;
              Node.sim_events := []; Node.calls := [] |} in
  (exists found w',
     Node.NonPromiscReceiveFromDevice w 7%nat 11%nat 2048 5%nat = Some (found, w') /\
     Node.calls w' = [Node.HandlerCall 1%nat (Some 7%nat) 11%nat 2048 5%nat 9%nat 0%nat]) /\
  (exists found w',
     Node.PromiscReceiveFromDevice w (Some 7%nat) 11%nat 2048 5%nat 6%nat 3%nat
       = Some (found, w') /\
     Node.calls w' = [Node.HandlerCall 2%nat (Some 7%nat) 11%nat 2048 5%nat 6%nat 3%nat]).
Proof.
  intros hn hp d w.
  destruct (receive_paths_isolated w 7%nat d 11%nat 2048 5%nat 6%nat 3%nat eq_refl eq_refl)
    as [(f1 & w1 & es1 & Hrun1 & Hcalls1 & -> & _) (f2 & w2 & es2 & Hrun2 & Hcalls2 & -> & _)].
  split.
  - exists f1, w1. split; [exact Hrun1|exact Hcalls1].
  - exists f2, w2. split; [exact Hrun2|exact Hcalls2].
Defined.

(** Registration without the promiscuous flag touches no device, and
    promiscuous registration for one device installs the promiscuous
    callback on that device and on no other, attached or not. *)
Theorem RegisterProtocolHandler_devices w hdl proto :
  (forall dev, Node.heap (Node.RegisterProtocolHandler w hdl proto dev false) = Node.heap w) /\
  (forall d d',
     Node.heap (Node.RegisterProtocolHandler w hdl proto (Some d) true) !! d' =
     if decide (d' = d) then promisc_armed w <$> Node.heap w !! d'
     else Node.heap w !! d').
Proof.
  split.
  - intros dev. reflexivity.
  - intros d d'. unfold Node.RegisterProtocolHandler.
    cbn [Node.with_node Node.with_heap Node.heap].
    destruct (decide (d' = d)) as [->|Hne].
    + rewrite lookup_alter_eq. reflexivity.
    + rewrite lookup_alter_ne by auto. reflexivity.
Qed.

(** ** Unregistration *)

Lemma erase_first_absent {A} (eq : A -> bool) l :
  Forall (fun x => eq x = false) l -> NodeLife.erase_first eq l = l.
Proof.
  induction 1 as [|x l Hx _ IH]; cbn [NodeLife.erase_first]; [reflexivity|].
  rewrite Hx, IH. reflexivity.
Qed.

Lemma erase_first_split {A} (eq : A -> bool) l1 x l2 :
  Forall (fun y => eq y = false) l1 -> eq x = true ->
  NodeLife.erase_first eq (l1 ++ x :: l2) = l1 ++ l2.
Proof.
  intros H Hx. induction H as [|y l1 Hy _ IH]; cbn [NodeLife.erase_first app].
  - rewrite Hx. reflexivity.
  - rewrite Hy, IH. reflexivity.
Qed.

(** [UnregisterProtocolHandler] erases the first entry of the handler and
    only that one, so a handler registered twice stays registered once; it
    does nothing when the handler has no entry; and it never touches a
    device, so a promiscuous callback installed at registration stays
    installed. *)
Theorem UnregisterProtocolHandler_first w hdl :
  let w' := NodeLife.UnregisterProtocolHandler w hdl in
  Node.heap w' = Node.heap w /\
  Node.m_devices (Node.this w') = Node.m_devices (Node.this w) /\
  Node.m_deviceAdditionListeners (Node.this w')
    = Node.m_deviceAdditionListeners (Node.this w) /\
  (Forall (fun e => Node.handler e <> hdl) (Node.m_handlers (Node.this w)) -> w' = w) /\
  (forall l1 e l2,
     Node.m_handlers (Node.this w) = l1 ++ e :: l2 ->
     Forall (fun e' => Node.handler e' <> hdl) l1 -> Node.handler e = hdl ->
     Node.m_handlers (Node.this w') = l1 ++ l2).
Proof.
  unfold NodeLife.UnregisterProtocolHandler.
  cbn [Node.with_node Node.this Node.heap Node.m_devices Node.m_handlers
       Node.m_deviceAdditionListeners].
  repeat split.
  - intros Habs. rewrite erase_first_absent.
    + destruct w as [[] ? ? ? ?]. reflexivity.
    + eapply Forall_impl; [exact Habs|]. intros e He. apply Nat.eqb_neq, He.
  - intros l1 e l2 -> Habs He. apply erase_first_split.
    + eapply Forall_impl; [exact Habs|]. intros e' He'. apply Nat.eqb_neq, He'.
    + apply Nat.eqb_eq, He.
Qed.

(** Registering a handler that has no entry yet and unregistering it again
    gives back the node as it was; the devices keep the callbacks that the
    registration installed. *)
Theorem Register_Unregister w hdl proto dev promisc :
  Forall (fun e => Node.handler e <> hdl) (Node.m_handlers (Node.this w)) ->
  let w1 := Node.RegisterProtocolHandler w hdl proto dev promisc in
  let w2 := NodeLife.UnregisterProtocolHandler w1 hdl in
  Node.this w2 = Node.this w /\ Node.heap w2 = Node.heap w1 /\
  Node.calls w2 = Node.calls w.
Proof.
  intros Habs w1 w2.
  destruct (RegisterProtocolHandler_frame w hdl proto dev promisc)
    as (Hthis & _ & Hcalls & _). fold w1 in Hthis, Hcalls.
  subst w2. unfold NodeLife.UnregisterProtocolHandler.
  cbn [Node.with_node Node.this Node.heap Node.calls].
  rewrite Hthis, Hcalls. cbn [Node.m_id Node.m_sid Node.m_devices Node.m_handlers
                              Node.m_deviceAdditionListeners].
  rewrite erase_first_split.
  - rewrite app_nil_r. destruct (Node.this w). repeat split.
  - eapply Forall_impl; [exact Habs|]. intros e He. apply Nat.eqb_neq, He.
  - apply Nat.eqb_refl.
Qed.

Lemma Register_Unregister_witness :
  let fresh := {| Node.dev_node := Some 4; Node.dev_ifIndex := 0;
                  Node.dev_address := 0%nat;
                  Node.dev_receiveCallback := None;
                  Node.dev_promiscCallback := None |} in
  let w := {| Node.this := {| Node.m_id := 4; Node.m_sid := 0;
                              Node.m_devices := [7%nat];
                              Node.m_handlers :=
                                [{| Node.handler := 1%nat; Node.device := None;
                                    Node.protocol := 0; Node.promiscuous := false |}];
                              Node.m_deviceAdditionListeners := [] |};
              Node.heap := {[ 7%nat := fresh ]}; Node.sim_context := 4;
              Node.sim_events := []; Node.calls := [] |} in
  let w1 := Node.RegisterProtocolHandler w 2%nat 0 None true in
  let w2 := NodeLife.UnregisterProtocolHandler w1 2%nat in
  Node.this w2 = Node.this w /\
  (Node.dev_promiscCallback <$> Node.heap w2 !! 7%nat) = Some (Some (Node.PromiscReceive 4)).
Proof.
  intros fresh w w1 w2.
  destruct (Register_Unregister w 2%nat 0 None true) as (Hthis & Hheap & _).
  - repeat constructor. discriminate.
  - split; [exact Hthis|]. unfold w2, w1. rewrite Hheap. vm_compute. reflexivity.
Defined.

(** [UnregisterDeviceAdditionListener] erases the first occurrence of the
    listener; a device added afterwards notifies the listeners that are
    left, in their order, and not the one removed. *)
Theorem UnregisterDeviceAdditionListener_then_AddDevice w l l1 l2 d :
  Node.m_deviceAdditionListeners (Node.this w) = l1 ++ l :: l2 ->
  l ∉ l1 ->
  let w1 := NodeLife.UnregisterDeviceAdditionListener w l in
  Node.m_deviceAdditionListeners (Node.this w1) = l1 ++ l2 /\
  Node.calls w1 = Node.calls w /\
  Node.calls (Node.AddDevice w1 d).2
    = Node.calls w ++ map (fun l' => Node.ListenerCall l' d) (l1 ++ l2).
Proof.
  intros Hl Hnot w1.
  assert (Node.m_deviceAdditionListeners (Node.this w1) = l1 ++ l2) as Hl1.
  { subst w1. unfold NodeLife.UnregisterDeviceAdditionListener.
    cbn [Node.with_node Node.this Node.m_deviceAdditionListeners].
    rewrite Hl. apply erase_first_split; [|apply Nat.eqb_refl].
    apply Forall_forall. intros x Hx. apply Nat.eqb_neq. intros ->. contradiction. }
  split; [exact Hl1|]. split; [reflexivity|].
  destruct (AddDevice_notifies w1 d) as (_ & _ & ->). rewrite Hl1. reflexivity.
Qed.

Lemma UnregisterDeviceAdditionListener_then_AddDevice_witness :
  let w := {| Node.this := {| Node.m_id := 4; Node.m_sid := 0;
                              Node.m_devices := [];
                              Node.m_handlers := [];
                              Node.m_deviceAdditionListeners := [1%nat; 2%nat; 3%nat] |};
              Node.heap := ∅; Node.sim_context := 4;
              Node.sim_events := []; Node.calls := [] |} in
  let w1 := NodeLife.UnregisterDeviceAdditionListener w 2%nat in
  Node.calls (Node.AddDevice w1 7%nat).2
    = [Node.ListenerCall 1%nat 7%nat; Node.ListenerCall 3%nat 7%nat].
Proof.
  intros w w1.
  destruct (UnregisterDeviceAdditionListener_then_AddDevice w 2%nat [1%nat] [3%nat] 7%nat)
    as (_ & _ & Hcalls).
  - reflexivity.
  - apply (bool_decide_unpack _). vm_compute. exact I.
  - exact Hcalls.
Defined.

(** ** Devices and applications by index *)

(** [AddDevice] returns the position of the device in the device list, puts
    that index and the node into the device, and [GetDevice] at that index
    returns the device; the devices attached before keep their indices, and
    the index after the last is out of range. *)
Theorem AddDevice_GetDevice w d :
  Z.of_nat (length (Node.m_devices (Node.this w))) < 2 ^ 32 ->
  let i := (Node.AddDevice w d).1 in
  let w1 := (Node.AddDevice w d).2 in
  i = Z.of_nat (length (Node.m_devices (Node.this w))) /\
  NodeLife.GetDevice w1 i = Some d /\
  NodeLife.GetDevice w1 (i + 1) = None /\
  (forall j d', NodeLife.GetDevice w j = Some d' -> NodeLife.GetDevice w1 j = Some d') /\
  (Node.dev_ifIndex <$> Node.heap w1 !! d) = ((fun _ => i) <$> Node.heap w !! d) /\
  (Node.dev_node <$> Node.heap w1 !! d) = ((fun _ => Some (Node.GetId w)) <$> Node.heap w !! d).
Proof.
  intros Hlen i w1.
  assert (i = Z.of_nat (length (Node.m_devices (Node.this w)))) as Hi.
  { subst i. unfold Node.AddDevice, wrap32. cbn [fst]. apply Z.mod_small. lia. }
  destruct (AddDevice_notifies w d) as (Hdevs & _). fold w1 in Hdevs.
  split; [exact Hi|]. unfold NodeLife.GetDevice. rewrite Hdevs, length_app.
  cbn [length]. repeat split.
  - destruct (Z.ltb_spec i (Z.of_nat (length (Node.m_devices (Node.this w)) + 1)));
      [|lia].
    rewrite Hi, Nat2Z.id. apply list_lookup_middle. reflexivity.
  - destruct (Z.ltb_spec (i + 1) (Z.of_nat (length (Node.m_devices (Node.this w)) + 1)));
      [lia|reflexivity].
  - intros j d'.
    destruct (Z.ltb_spec j (Z.of_nat (length (Node.m_devices (Node.this w)))));
      [|discriminate].
    intros Hj.
    destruct (Z.ltb_spec j (Z.of_nat (length (Node.m_devices (Node.this w)) + 1)));
      [|lia].
    apply lookup_app_l_Some, Hj.
  - subst w1. rewrite AddDevice_heap, decide_True by reflexivity.
    unfold i, Node.AddDevice. cbn [fst]. destruct (Node.heap w !! d); reflexivity.
  - subst w1. rewrite AddDevice_heap, decide_True by reflexivity.
    destruct (Node.heap w !! d); reflexivity.
Qed.

Lemma AddDevice_GetDevice_witness :
  let w := {| Node.this := {| Node.m_id := 4; Node.m_sid := 0;
                              Node.m_devices := [7%nat];
                              Node.m_handlers := [];
                              Node.m_deviceAdditionListeners := [] |};
              Node.heap := ∅; Node.sim_context := 4;
              Node.sim_events := []; Node.calls := [] |} in
  (Node.AddDevice w 8%nat).1 = 1 /\
  NodeLife.GetDevice (Node.AddDevice w 8%nat).2 1 = Some 8%nat /\
  NodeLife.GetDevice (Node.AddDevice w 8%nat).2 2 = None.
Proof.
  intros w.
  destruct (AddDevice_GetDevice w 8%nat) as (Hi & Hget & Hout & _).
  - vm_compute. reflexivity.
  - split; [exact Hi|]. rewrite Hi in Hget, Hout. split; [exact Hget|exact Hout].
Defined.

(** [AddApplication] returns the position of the application in the
    application list, and [GetApplication] at that index returns it; earlier
    applications keep their indices, the index after the last is out of
    range, and the devices and tables of the node are untouched. *)
Theorem AddApplication_GetApplication o a :
  Z.of_nat (length (NodeLife.m_applications o)) < 2 ^ 32 ->
  let i := (NodeLife.AddApplication o a).1 in
  let o1 := (NodeLife.AddApplication o a).2 in
  i = Z.of_nat (length (NodeLife.m_applications o)) /\
  NodeLife.GetApplication o1 i = Some a /\
  NodeLife.GetApplication o1 (i + 1) = None /\
  (forall j a', NodeLife.GetApplication o j = Some a' ->
                NodeLife.GetApplication o1 j = Some a') /\
  NodeLife.world o1 = NodeLife.world o /\
  NodeLife.effects o1 =
    NodeLife.effects o
    ++ [NodeLife.ApplicationSetNode a (Node.GetId (NodeLife.world o));
        NodeLife.ApplicationSchedule (Node.GetId (NodeLife.world o)) a].
Proof.
  intros Hlen i o1.
  assert (i = Z.of_nat (length (NodeLife.m_applications o))) as Hi.
  { subst i. unfold NodeLife.AddApplication, wrap32. cbn [fst]. apply Z.mod_small. lia. }
  split; [exact Hi|]. subst o1.
  unfold NodeLife.GetApplication, NodeLife.AddApplication, NodeLife.perform.
  cbn [snd NodeLife.m_applications NodeLife.world NodeLife.effects].
  rewrite length_app. cbn [length]. repeat split.
  - destruct (Z.ltb_spec i (Z.of_nat (length (NodeLife.m_applications o) + 1))); [|lia].
    rewrite Hi, Nat2Z.id. apply list_lookup_middle. reflexivity.
  - destruct (Z.ltb_spec (i + 1) (Z.of_nat (length (NodeLife.m_applications o) + 1)));
      [lia|reflexivity].
  - intros j a'.
    destruct (Z.ltb_spec j (Z.of_nat (length (NodeLife.m_applications o))));
      [|discriminate].
    intros Hj.
    destruct (Z.ltb_spec j (Z.of_nat (length (NodeLife.m_applications o) + 1))); [|lia].
    apply lookup_app_l_Some, Hj.
  - rewrite <- app_assoc. reflexivity.
Qed.

Lemma AddApplication_GetApplication_witness :
  let o := {| NodeLife.world :=
                {| Node.this := {| Node.m_id := 4; Node.m_sid := 0;
                                   Node.m_devices := []; Node.m_handlers := [];
                                   Node.m_deviceAdditionListeners := [] |};
                   Node.heap := ∅; Node.sim_context := 4;
                   Node.sim_events := []; Node.calls := [] |};
              NodeLife.m_applications := [5%nat; 6%nat];
              NodeLife.effects := [] |} in
  (NodeLife.AddApplication o 9%nat).1 = 2 /\
  NodeLife.GetApplication (NodeLife.AddApplication o 9%nat).2 2 = Some 9%nat /\
  NodeLife.GetApplication (NodeLife.AddApplication o 9%nat).2 0 = Some 5%nat.
Proof.
  intros o.
  destruct (AddApplication_GetApplication o 9%nat) as (Hi & Hget & _ & Hold & _).
  - vm_compute. reflexivity.
  - split; [exact Hi|]. rewrite Hi in Hget. split; [exact Hget|].
    apply Hold. reflexivity.
Defined.

(** ** Disposal *)

Lemma perform_all {A} (f : A -> NodeLife.Effect) xs : forall o,
  fold_left (fun o x => NodeLife.perform o (f x)) xs o
  = {| NodeLife.world := NodeLife.world o;
       NodeLife.m_applications := NodeLife.m_applications o;
       NodeLife.effects := NodeLife.effects o ++ map f xs |}.
Proof.
  induction xs as [|x xs IH]; intros o; cbn [fold_left map].
  - rewrite app_nil_r. destruct o; reflexivity.
  - rewrite IH. cbn [NodeLife.perform NodeLife.world NodeLife.m_applications
                     NodeLife.effects]. rewrite <- app_assoc. reflexivity.
Qed.

(** [DoDispose] empties the handler table, the listener list, the device
    list and the application list, disposes every attached device and then
    every application once, in attachment order, before the base class, and
    keeps the id of the node.  Afterwards a reception finds no handler and
    invokes nothing, and a second [DoDispose] disposes no device or
    application again. *)
Theorem DoDispose_clears o :
  let o' := NodeLife.DoDispose o in
  Node.this (NodeLife.world o') =
    {| Node.m_id := Node.m_id (Node.this (NodeLife.world o));
       Node.m_sid := Node.m_sid (Node.this (NodeLife.world o));
       Node.m_devices := []; Node.m_handlers := [];
       Node.m_deviceAdditionListeners := [] |} /\
  NodeLife.m_applications o' = [] /\
  NodeLife.effects o' =
    NodeLife.effects o
    ++ map NodeLife.DeviceDispose (Node.m_devices (Node.this (NodeLife.world o)))
    ++ map NodeLife.ApplicationDispose (NodeLife.m_applications o)
    ++ [NodeLife.ObjectDoDispose] /\
  Node.calls (NodeLife.world o') = Node.calls (NodeLife.world o) /\
  (forall dev packet proto from to packetType promisc,
     Node.sim_context (NodeLife.world o) = Node.GetId (NodeLife.world o) ->
     Node.ReceiveFromDevice (NodeLife.world o') dev packet proto from to packetType promisc
       = Some (false, NodeLife.world o')) /\
  NodeLife.effects (NodeLife.DoDispose o') = NodeLife.effects o' ++ [NodeLife.ObjectDoDispose].
Proof.
  intros o'.
  assert (o' =
    {| NodeLife.world :=
         Node.with_node (NodeLife.world o)
           {| Node.m_id := Node.m_id (Node.this (NodeLife.world o));
              Node.m_sid := Node.m_sid (Node.this (NodeLife.world o));
              Node.m_devices := []; Node.m_handlers := [];
              Node.m_deviceAdditionListeners := [] |};
       NodeLife.m_applications := [];
       NodeLife.effects :=
         NodeLife.effects o
         ++ map NodeLife.DeviceDispose (Node.m_devices (Node.this (NodeLife.world o)))
         ++ map NodeLife.ApplicationDispose (NodeLife.m_applications o)
         ++ [NodeLife.ObjectDoDispose] |}) as Ho'.
  { subst o'. unfold NodeLife.DoDispose.
    cbn [NodeLife.world Node.with_node Node.this Node.m_devices].
    rewrite !perform_all. unfold NodeLife.perform, Node.with_node.
    cbn [NodeLife.world NodeLife.m_applications NodeLife.effects NodeLife.perform
         Node.with_node Node.this Node.m_id Node.m_sid Node.m_devices Node.m_handlers
         Node.m_deviceAdditionListeners Node.heap Node.sim_context Node.sim_events
         Node.calls].
    rewrite <- !app_assoc. reflexivity. }
  split; [rewrite Ho'; reflexivity|]. split; [rewrite Ho'; reflexivity|].
  split; [rewrite Ho'; reflexivity|]. split; [rewrite Ho'; reflexivity|]. split.
  - intros dev packet proto from to packetType promisc Hctx.
    rewrite Ho'. unfold Node.ReceiveFromDevice, Node.GetId, Node.with_node in *.
    cbn [NodeLife.world Node.with_node Node.this Node.sim_context Node.m_id
         Node.m_handlers fold_left].
    rewrite Hctx, Z.eqb_refl. reflexivity.
  - rewrite Ho'. unfold NodeLife.DoDispose, NodeLife.perform, Node.with_node.
    cbn [NodeLife.world NodeLife.m_applications NodeLife.effects NodeLife.perform
         Node.with_node Node.this Node.m_devices fold_left].
    reflexivity.
Qed.

(** ** More on the header codec *)

Ltac header_wf_concrete :=
  repeat match goal with x := _ |- _ => subst x end;
  unfold header_wf, hop_wf;
  cbv [IntHeader.init IntHeader.maxHop replicate IntHeader.hop IntHeader.nhop length];
  split; [reflexivity|split; [|lia]];
  repeat first [apply Forall_nil_2 | apply Forall_cons_2; [lia|]].

Lemma Serialize_Deserialize_witness :
  let g := {| IntHeader.mode := IntHeader.NORMAL; IntHeader.pint_bytes := 2;
              IntHeader.multi := 1 |} in
  let h := {| IntHeader.hop := [11; 2 ^ 63 + 5; 0; 2 ^ 40; 77]; IntHeader.nhop := 513 |} in
  let start := {| Buffer.data := replicate 50 0; Buffer.cur := 3 |} in
  let r := IntHeader.Deserialize g IntHeader.init
             (rewind start (IntHeader.Serialize g h start)) in
  (IntHeader.hop r.1.1 = IntHeader.hop h /\ IntHeader.nhop r.1.1 = 513) /\
  distance start r.1.2 = distance start (IntHeader.Serialize g h start).
Proof.
  intros g h start r.
  apply (Serialize_Deserialize g h IntHeader.init start).
  - header_wf_concrete.
  - header_wf_concrete.
  - intros H. discriminate H.
  - vm_compute. lia.
Defined.

Lemma static_size_agrees_witness :
  let g := {| IntHeader.mode := IntHeader.TS; IntHeader.pint_bytes := 1;
              IntHeader.multi := 1 |} in
  let i := {| Buffer.data := replicate 20 0; Buffer.cur := 3 |} in
  distance i (IntHeader.Serialize g IntHeader.init i) = IntHeader.GetStaticSize g /\
  distance i (IntHeader.Deserialize g IntHeader.init i).1.2 = IntHeader.GetStaticSize g /\
  (IntHeader.Deserialize g IntHeader.init i).2 = IntHeader.GetStaticSize g.
Proof.
  intros g i. apply (static_size_agrees g IntHeader.init IntHeader.init i).
  left. discriminate.
Defined.

Lemma GetBytesDelta_wrap_witness :
  IntHop.GetBytesDelta 4 (IntHop.set_bytes 0 5) (IntHop.set_bytes 0 (2 ^ 20 - 3))
  = (if IntHop.bytes (IntHop.set_bytes 0 (2 ^ 20 - 3)) <=? IntHop.bytes (IntHop.set_bytes 0 5)
     then IntHop.bytes (IntHop.set_bytes 0 5) - IntHop.bytes (IntHop.set_bytes 0 (2 ^ 20 - 3))
     else IntHop.bytes (IntHop.set_bytes 0 5) - IntHop.bytes (IntHop.set_bytes 0 (2 ^ 20 - 3))
          + 2 ^ IntHop.bytesWidth)
    * (IntHop.byteUnit * 4) /\
  0 <= IntHop.GetBytesDelta 4 (IntHop.set_bytes 0 5) (IntHop.set_bytes 0 (2 ^ 20 - 3)).
Proof.
  apply (GetBytesDelta_wrap 4). lia.
Defined.

(** [Serialize] into a buffer with [GetStaticSize] bytes of room keeps the
    length of the buffer and changes no byte before the start position or
    from the end position on. *)
Theorem Serialize_frame g h start :
  Z.of_nat (Buffer.cur start) + IntHeader.GetStaticSize g
    <= Z.of_nat (length (Buffer.data start)) ->
  let after := IntHeader.Serialize g h start in
  length (Buffer.data after) = length (Buffer.data start) /\
  forall k, (k < Buffer.cur start \/ Buffer.cur after <= k)%nat ->
            Buffer.data after !! k = Buffer.data start !! k.
Proof.
  intros Hroom after.
  assert (Buffer.cur start + length (wire g h) <= length (Buffer.data start))%nat as Hr.
  { pose proof (wire_length g h) as Hw. rewrite GetStaticSize_table in Hroom.
    destruct (IntHeader.mode g); try lia.
    destruct (IntHeader.pint_bytes g =? 1); [lia|].
    destruct (IntHeader.pint_bytes g =? 2); lia. }
  subst after. rewrite Serialize_wire by exact Hr.
  split; [apply write_bytes_length, Hr|].
  unfold write_bytes. cbn [Buffer.data Buffer.cur].
  intros k [Hk|Hk].
  - rewrite lookup_app_l by (rewrite length_take; lia).
    apply lookup_take_lt, Hk.
  - rewrite lookup_app_r by (rewrite length_take; lia).
    rewrite lookup_app_r by (rewrite length_take; lia).
    rewrite lookup_drop, length_take. f_equal. lia.
Qed.

Lemma Serialize_frame_witness :
  let g := {| IntHeader.mode := IntHeader.PINT; IntHeader.pint_bytes := 1;
              IntHeader.multi := 1 |} in
  let h := {| IntHeader.hop := [511; 0; 0; 0; 0]; IntHeader.nhop := 0 |} in
  let start := {| Buffer.data := [1; 2; 3; 4; 5]; Buffer.cur := 2 |} in
  Buffer.data (IntHeader.Serialize g h start) !! 1%nat = Some 2 /\
  Buffer.data (IntHeader.Serialize g h start) !! 3%nat = Some 4.
Proof.
  intros g h start.
  destruct (Serialize_frame g h start) as [_ Hk].
  - vm_compute. discriminate.
  - split; [apply (Hk 1%nat)|apply (Hk 3%nat)].
    + left. vm_compute. lia.
    + right. vm_compute. lia.
Defined.

(** In PINT mode [GetPower] returns what [SetPower] stored, cut to the
    configured width (8 bits when [pint_bytes] is 1, 16 bits otherwise, and
    then the high byte of the stored value is left as it was); in every
    other mode [SetPower] changes nothing and [GetPower] returns 0.
    [SetPower] never touches the push counter nor a hop other than the
    first, whose storage the power value shares. *)
Theorem SetPower_GetPower g h p :
  header_wf h ->
  IntHeader.GetPower g (IntHeader.SetPower g h p) =
    match IntHeader.mode g with
    | IntHeader.PINT => if IntHeader.pint_bytes g =? 1 then p mod 2 ^ 8 else p mod 2 ^ 16
    | _ => 0
    end /\
  (IntHeader.mode g <> IntHeader.PINT -> IntHeader.SetPower g h p = h) /\
  (IntHeader.pint_bytes g = 1 ->
   bf_get 8 8 (IntHeader.hop_at (IntHeader.SetPower g h p) 0)
   = bf_get 8 8 (IntHeader.hop_at h 0)) /\
  IntHeader.nhop (IntHeader.SetPower g h p) = IntHeader.nhop h /\
  (forall j, (0 < j)%nat ->
     IntHeader.hop_at (IntHeader.SetPower g h p) j = IntHeader.hop_at h j).
Proof.
  intros (Hlen & _ & _).
  assert (0 < length (IntHeader.hop h))%nat as Hpos
    by (rewrite Hlen; unfold IntHeader.maxHop; lia).
  unfold IntHeader.GetPower, IntHeader.SetPower.
  destruct (IntHeader.mode g); try (repeat split; congruence).
  destruct (Z.eqb_spec (IntHeader.pint_bytes g) 1) as [Hp|Hp].
  - unfold IntHeader.set_power_lo8, IntHeader.power_lo8. repeat split.
    + rewrite hop_at_set_hop by exact Hpos. apply bf_get_set_same; lia.
    + intros H. contradiction.
    + intros _. rewrite hop_at_set_hop by exact Hpos.
      apply bf_get_set_other; lia.
    + intros j Hj. unfold IntHeader.set_hop. destruct h as [hs n].
      apply hop_at_insert_ne. lia.
  - unfold IntHeader.set_power, IntHeader.power. repeat split.
    + rewrite hop_at_set_hop by exact Hpos. apply bf_get_set_same; lia.
    + intros H. contradiction.
    + intros H. contradiction.
    + intros j Hj. unfold IntHeader.set_hop. destruct h as [hs n].
      apply hop_at_insert_ne. lia.
Qed.

Lemma SetPower_GetPower_witness :
  let g := {| IntHeader.mode := IntHeader.PINT; IntHeader.pint_bytes := 1;
              IntHeader.multi := 1 |} in
  IntHeader.GetPower g (IntHeader.SetPower g IntHeader.init 0x1234) = 0x34.
Proof.
  intros g.
  destruct (SetPower_GetPower g IntHeader.init 0x1234) as [Hget _].
  - header_wf_concrete.
  - exact Hget.
Defined.

(** ** The ring of hops *)

Lemma PushHop_normal g h t b q r :
  IntHeader.mode g = IntHeader.NORMAL -> div_defined (IntHeader.multi g) ->
  exists x out,
    IntHeader.PushHop g h t b q r =
      Some ({| IntHeader.hop := <[ring_slot h := x]> (IntHeader.hop h);
               IntHeader.nhop := wrap16 (IntHeader.nhop h + 1) |}, out) /\
    holds_sample (IntHeader.multi g) x (t, b, q, r).
Proof.
  intros Hm Hdiv. unfold IntHeader.PushHop. rewrite Hm, PushHop_index.
  destruct (Set_fields (IntHeader.multi g) (IntHeader.hop_at h (ring_slot h)) t b q r Hdiv)
    as (x & Hset & Ht & Hb & Hq & Hr).
  rewrite Hset. cbn [mbind option_bind]. eexists. eexists. split; [reflexivity|].
  repeat split; auto.
  intros i Hi. rewrite Hr, (rate_case_supported _ _ Hi). reflexivity.
Qed.

Lemma slot_apart a c :
  1 <= c <= 4 -> Z.to_nat ((a + c) mod 5) <> Z.to_nat (a mod 5).
Proof.
  intros Hc H.
  pose proof (Z.mod_pos_bound (a + c) 5 ltac:(lia)).
  pose proof (Z.mod_pos_bound a 5 ltac:(lia)).
  apply Z2Nat.inj in H; try lia.
  pose proof (Z.div_mod (a + c) 5 ltac:(lia)).
  pose proof (Z.div_mod a 5 ltac:(lia)). lia.
Qed.

(** A header that starts well formed and is pushed [n] times in NORMAL mode,
    without the 16-bit counter passing [2^16], stays well formed; its counter
    has advanced by [n]; each of the last [maxHop] samples is held, quantized,
    in ring slot (counter at its push) mod [maxHop], with the table index of
    its rate when the rate is supported; and a slot that no push selected is
    unchanged. *)
Theorem push_all_ring g xs : forall h,
  IntHeader.mode g = IntHeader.NORMAL ->
  div_defined (IntHeader.multi g) ->
  header_wf h ->
  IntHeader.nhop h + Z.of_nat (length xs) < 2 ^ 16 ->
  exists h' out,
    push_all g h xs = Some (h', out) /\
    header_wf h' /\
    IntHeader.nhop h' = IntHeader.nhop h + Z.of_nat (length xs) /\
    (forall k s,
       xs !! k = Some s -> (length xs <= k + IntHeader.maxHop)%nat ->
       holds_sample (IntHeader.multi g)
         (IntHeader.hop_at h' (Z.to_nat ((IntHeader.nhop h + Z.of_nat k) mod 5))) s) /\
    (forall j,
       (forall k, (k < length xs)%nat ->
                  Z.to_nat ((IntHeader.nhop h + Z.of_nat k) mod 5) <> j) ->
       IntHeader.hop_at h' j = IntHeader.hop_at h j).
Proof.
  induction xs as [|[[[t b] q] r] xs IH]; intros h Hm Hdiv Hwf Hn.
  - exists h, []. split; [reflexivity|]. split; [exact Hwf|].
    cbn [length]. split; [lia|]. split; [|reflexivity].
    intros k s Hk. destruct k; discriminate Hk.
  - cbn [length] in Hn. rewrite Nat2Z.inj_succ in Hn.
    destruct (PushHop_normal g h t b q r Hm Hdiv) as (x & out1 & Hpush & Hx).
    set (h1 := {| IntHeader.hop := <[ring_slot h := x]> (IntHeader.hop h);
                  IntHeader.nhop := wrap16 (IntHeader.nhop h + 1) |}) in *.
    pose proof (PushHop_wf g h t b q r h1 out1 Hwf Hpush) as Hwf1.
    destruct Hwf as (Hlen & _ & Hcount).
    assert (IntHeader.nhop h1 = IntHeader.nhop h + 1) as Hn1.
    { unfold h1, wrap16. cbn [IntHeader.nhop]. apply Z.mod_small. lia. }
    destruct (IH h1 Hm Hdiv Hwf1 ltac:(lia)) as (h' & out2 & Hrest & Hwf' & Hn' & Hheld & Hkept).
    exists h', (out1 ++ out2). cbn [push_all]. rewrite Hpush. cbn [mbind option_bind].
    rewrite Hrest. cbn [mbind option_bind]. split; [reflexivity|]. split; [exact Hwf'|].
    cbn [length]. rewrite Nat2Z.inj_succ. split; [lia|].
    assert (IntHeader.hop_at h1 (ring_slot h) = x) as Hslot.
    { apply hop_at_lookup. unfold h1. cbn [IntHeader.hop].
      apply list_lookup_insert_eq. rewrite Hlen. apply ring_slot_lt. }
    split.
    + intros k s Hk Hlast. destruct k as [|k].
      * injection Hk as <-. rewrite Z.add_0_r.
        change (Z.to_nat (IntHeader.nhop h mod 5)) with (ring_slot h).
        rewrite (Hkept (ring_slot h)); [rewrite Hslot; exact Hx|].
        intros k Hklt. rewrite Hn1.
        replace (IntHeader.nhop h + 1 + Z.of_nat k)
          with (IntHeader.nhop h + (1 + Z.of_nat k)) by lia.
        apply slot_apart. unfold IntHeader.maxHop in Hlast. cbn [length] in Hlast. lia.
      * cbn in Hk. rewrite Nat2Z.inj_succ.
        replace (IntHeader.nhop h + Z.succ (Z.of_nat k))
          with (IntHeader.nhop h1 + Z.of_nat k) by lia.
        apply Hheld; [exact Hk|]. lia.
    + intros j Hj. rewrite Hkept.
      * unfold h1. apply hop_at_insert_ne.
        specialize (Hj 0%nat ltac:(cbn [length]; lia)). rewrite Z.add_0_r in Hj.
        intros ->. apply Hj. reflexivity.
      * intros k Hk. specialize (Hj (S k) ltac:(cbn [length]; lia)).
        rewrite Nat2Z.inj_succ in Hj.
        replace (IntHeader.nhop h1 + Z.of_nat k)
          with (IntHeader.nhop h + Z.succ (Z.of_nat k)) by lia.
        exact Hj.
Qed.

Lemma push_all_ring_witness :
  let g := {| IntHeader.mode := IntHeader.NORMAL; IntHeader.pint_bytes := 2;
              IntHeader.multi := 1 |} in
  let xs := [(1, 128, 80, 25 * 10 ^ 9); (2, 256, 160, 50 * 10 ^ 9);
             (3, 384, 240, 100 * 10 ^ 9); (4, 512, 320, 200 * 10 ^ 9);
             (5, 640, 400, 400 * 10 ^ 9); (6, 768, 480, 25 * 10 ^ 9);
             (7, 896, 560, 10 * 10 ^ 9)] in
  exists h' out,
    push_all g IntHeader.init xs = Some (h', out) /\
    IntHeader.nhop h' = 7 /\
    holds_sample 1 (IntHeader.hop_at h' 1) (7, 896, 560, 10 * 10 ^ 9) /\
    holds_sample 1 (IntHeader.hop_at h' 2) (3, 384, 240, 100 * 10 ^ 9).
Proof.
  intros g xs.
  destruct (push_all_ring g xs IntHeader.init eq_refl)
    as (h' & out & Hrun & _ & Hn & Hheld & _).
  - split; vm_compute; discriminate.
  - header_wf_concrete.
  - vm_compute. reflexivity.
  - exists h', out. split; [exact Hrun|]. split; [exact Hn|]. split.
    + apply (Hheld 6%nat); [reflexivity|vm_compute; lia].
    + apply (Hheld 2%nat); [reflexivity|vm_compute; lia].
Defined.
